(** * genshi.template.eval: safe evaluation of template expressions

    A shallow embedding of [genshi/template/eval.py]: the run-time lookup
    policies ([LookupBase], [LenientLookup], [StrictLookup]), the
    [Undefined] sentinel and [UndefinedError], the syntax-tree rewriter
    ([ASTTransformer], [TemplateASTTransformer],
    [ExpressionASTTransformer]) and the [Code] / [Expression] / [Suite]
    wrappers.

    Conventions.
    - Python objects are values of [pyval].  The private module sentinel
      [UNDEFINED = object()], which the source only ever uses as the
      "no value" default of [dict.get], [getattr] and of the [owner]
      keyword, is the [None] of an [option pyval].
    - Python 2 has two text types ([str], [unicode]).  A run-time value
      of either is a [VStr], and [isinstance(key, basestring)] is "the
      value is a [VStr]".  The two places where the module tells them
      apart, the literal of a [Str] node and the file name of a code
      object, hold a [basestring].
    - What the host interpreter provides at run time (native attribute and
      item access, [repr], the built-in namespace, the parser, code-object
      equality and hashing) is a [Variable] of the section that uses it;
      what it provides to the rewriter and to the compiler (the UTF-8
      codec, [repr] and [splitlines] on text, the outcome of the
      star-import check) is the class [Host].
    - An exception is a value of [exn]; a raising computation returns
      [Raise e]. *)

From Stdlib Require Import Ascii String ZArith.
From stdpp Require Import gmap strings list.

Open Scope string_scope.

#[local] Set Warnings "-register-all".
#[local] Set Warnings "-register-all,-automation".


(* Induction principles through the containers the trees are nested in. *)
Scheme All for list.
Scheme All for option.
Scheme All for prod.

(** ** Python values *)

(** The three lookup classes of the module. *)
Inductive lookup_class := LookupBase | LenientLookup | StrictLookup.

(** The three class methods [LookupBase.globals] publishes. *)
Inductive lookup_method := m_lookup_name | m_lookup_attr | m_lookup_item.

Inductive pyval :=
| VStr (s : string)                      (* text *)
| VInt (n : Z)                           (* a number literal *)
| VTuple (items : list pyval)
| VUndefined (_name : string) (_owner : option pyval)
                                         (* an instance of class Undefined *)
| VData                                  (* the mapping passed to evaluate/execute *)
| VMethod (cls : lookup_class) (m : lookup_method)
                                         (* the bound class method cls.lookup_xxx *)
| VFunction (name : string)              (* a module-level function of eval.py *)
| VClass (name : string)                 (* Markup, Undefined, UndefinedError *)
| VHost (n : nat).                       (* any other object of the host *)

(** Exceptions.  Only [UndefinedError] carries its message, the others are
    identified by their class; [HostError] stands for every exception class
    the module does not name. *)
Inductive exn :=
| AttributeError
| KeyError
| IndexError
| TypeError
| NameError
| NotImplementedError
| RuntimeError          (* "maximum recursion depth exceeded" *)
| UnicodeDecodeError
| UndefinedError (message : string)
| HostError (n : nat).

Inductive result (A : Type) :=
| Ok (a : A)
| Raise (e : exn).
Arguments Ok {A} a.
Arguments Raise {A} e.

(** The double quote character, as a string. *)
Definition dquote : string := String "034"%char EmptyString.

(** ** Text

    A [str] is a sequence of bytes, a [unicode] a sequence of code
    points. *)
Definition unicode := list N.

Inductive basestring :=
| PyStr (s : string)
| PyUnicode (u : unicode).

(** [s.decode('ascii')] returns: every byte of [s] is below 128. *)
Definition is_ascii (s : string) : bool :=
  forallb (λ c, (N_of_ascii c <? 128)%N) (list_ascii_of_string s).

(** What the interpreter provides to the rewriter and to the compiler. *)
Class Host := {
  (** [s.decode('utf-8')]; [None] when it raises [UnicodeDecodeError] *)
  decode_utf8 : string → option unicode;
  (** [u.encode('utf-8', 'replace')] *)
  encode_utf8 : unicode → string;
  (** ['%r' % s] on a text [s] *)
  repr_text : string → string;
  (** [s.splitlines()] *)
  splitlines : string → list string;
  (** [has_star_import_bug], set when the module is loaded: whether
      [exec 'from sys import *'] fails with a mapping as local scope *)
  has_star_import_bug : bool
}.

(** ** UndefinedError *)

Module UndefinedError.
Section WithHost.
(** [repr(owner)] *)
Variable repr : pyval → string.

(** [UndefinedError.__init__(self, name, owner=UNDEFINED)]: the message
    handed to [TemplateRuntimeError.__init__], from the formats
    ['%s has no member named "%s"'] and ['"%s" not defined']. *)
Definition __init__ (name : string) (owner : option pyval) : string :=
  match owner with
  | Some owner => repr owner ++ " has no member named " ++ dquote ++ name ++ dquote
  | None => dquote ++ name ++ dquote ++ " not defined"
  end.
End WithHost.
End UndefinedError.

(** ** Undefined *)

Module Undefined.
(** [__slots__ = ['_name', '_owner']] *)
Record t := __init__ { _name : string; _owner : option pyval }.

Definition to_pyval (self : t) : pyval := VUndefined (_name self) (_owner self).

(** [def __iter__(self): return iter([])] *)
Definition __iter__ (self : t) : list pyval := [].

(** [def __nonzero__(self): return False] *)
Definition __nonzero__ (self : t) : bool := false.

(** [def __str__(self): return 'undefined'] *)
Definition __str__ (self : t) : string := "undefined".

Section WithHost.
Variable repr : pyval → string.

(** [def __repr__(self): return '<%s %r>' % (self.__class__.__name__, self._name)] *)
Definition __repr__ (self : t) : string :=
  "<Undefined " ++ repr (VStr (_name self)) ++ ">".

(** [def _die(self, *args, **kwargs): raise UndefinedError(self._name, self._owner)] *)
Definition _die (self : t) (args : list pyval) : result pyval :=
  Raise (UndefinedError (UndefinedError.__init__ repr (_name self) (_owner self))).

(** [__call__ = __getattr__ = __getitem__ = _die] *)
Definition __call__ := _die.
Definition __getattr__ (self : t) (name : string) := _die self [VStr name].
Definition __getitem__ (self : t) (key : pyval) := _die self [key].

(** The names the class body binds, with [__doc__] and [__module__],
    which every class statement binds. *)
Definition class_body : list string :=
  ["__slots__"; "__init__"; "__iter__"; "__nonzero__"; "__repr__"; "__str__";
   "_die"; "__call__"; "__getattr__"; "__getitem__"; "__doc__"; "__module__"].

(** An attribute of the class, bound to the instance. *)
Variable bound : t → string → pyval.
(** What the base class [object] provides under a name ([__class__],
    [__hash__], ...), if anything. *)
Variable object_attribute : t → string → option pyval.

(** Reading an attribute, [self.<attr>].  [__getattr__] is the hook the
    interpreter calls when the normal lookup fails: the two slots, which
    [__init__] always sets (and [_die] reads), what the class body binds
    and what [object] provides are found first and returned.  The value
    [None] is the private [UNDEFINED] of an [_owner] that was not given. *)
Definition getattribute (self : t) (attr : string) : result (option pyval) :=
  if decide (attr = "_name") then Ok (Some (VStr (_name self)))
  else if decide (attr = "_owner") then Ok (_owner self)
  else if bool_decide (attr ∈ class_body) then Ok (Some (bound self attr))
  else
    match object_attribute self attr with
    | Some val => Ok (Some val)
    | None =>
        match __getattr__ self attr with
        | Ok val => Ok (Some val)
        | Raise e => Raise e
        end
    end.
End WithHost.
End Undefined.

(** ** Lookup policies *)

Section Lookup.
(** [__builtin__.__dict__] *)
Variable builtin_dict : gmap string pyval.
(** [getattr(obj, key)] *)
Variable getattr : pyval → string → result pyval.
(** [hasattr(obj.__class__, key)] *)
Variable hasattr_class : pyval → string → bool.
(** [obj[key]] *)
Variable getitem : pyval → pyval → result pyval.
(** [repr(obj)] *)
Variable repr : pyval → string.

(** [BUILTINS = __builtin__.__dict__.copy()]
    [BUILTINS.update({'Markup': Markup, 'Undefined': Undefined})] *)
Definition BUILTINS : gmap string pyval :=
  <["Undefined" := VClass "Undefined"]>
    (<["Markup" := VClass "Markup"]> builtin_dict).

(** [getattr(obj, key, UNDEFINED)]: only [AttributeError] selects the
    default. *)
Definition getattr_default (obj : pyval) (key : string) : result (option pyval) :=
  match getattr obj key with
  | Ok val => Ok (Some val)
  | Raise AttributeError => Ok None
  | Raise e => Raise e
  end.

(** [undefined(cls, key, owner=UNDEFINED)], per class. *)
Definition undefined (cls : lookup_class) (key : string) (owner : option pyval)
  : result pyval :=
  match cls with
  | LookupBase => Raise NotImplementedError
  | LenientLookup => Ok (Undefined.to_pyval (Undefined.__init__ key owner))
  | StrictLookup => Raise (UndefinedError (UndefinedError.__init__ repr key owner))
  end.

(** [LookupBase.lookup_name(cls, data, name)] *)
Definition lookup_name (cls : lookup_class) (data : gmap string pyval)
    (name : string) : result pyval :=
  match data !! name with
  | Some val => Ok val
  | None =>
      match BUILTINS !! name with
      | Some val => Ok val
      | None => undefined cls name None
      end
  end.

(** [LookupBase.lookup_attr(cls, obj, key)] *)
Definition lookup_attr (cls : lookup_class) (obj : pyval) (key : string)
  : result pyval :=
  match getattr obj key with
  | Ok val => Ok val
  | Raise AttributeError =>
      if hasattr_class obj key then Raise AttributeError
      else
        match getitem obj (VStr key) with
        | Ok val => Ok val
        | Raise KeyError | Raise TypeError => undefined cls key (Some obj)
        | Raise e => Raise e
        end
  | Raise e => Raise e
  end.

(** [isinstance(key, basestring)] *)
Definition as_basestring (key : pyval) : option string :=
  match key with VStr s => Some s | _ => None end.

(** The exception classes of the [except] clause of [lookup_item]. *)
Definition item_failure (e : exn) : bool :=
  match e with
  | AttributeError | KeyError | IndexError | TypeError => true
  | _ => false
  end.

(** [if len(key) == 1: key = key[0]] on the tuple [key]. *)
Definition single_key (key : list pyval) : pyval :=
  if decide (length key = 1) then default (VTuple key) (head key)
  else VTuple key.

(** [LookupBase.lookup_item(cls, obj, key)]; [key] is the tuple the
    rewriter builds. *)
Definition lookup_item (cls : lookup_class) (obj : pyval) (key : list pyval)
  : result pyval :=
  let key := single_key key in
  match getitem obj key with
  | Ok val => Ok val
  | Raise e =>
      if item_failure e then
        match as_basestring key with
        | Some s =>
            match getattr_default obj s with
            | Ok (Some val) => Ok val
            | Ok None => undefined cls s (Some obj)
            | Raise e' => Raise e'
            end
        | None => Raise e
        end
      else Raise e
  end.

(** [LookupBase.globals(cls, data)] *)
Definition globals (cls : lookup_class) : gmap string pyval :=
  <["__data__" := VData]>
  (<["_lookup_name" := VMethod cls m_lookup_name]>
  (<["_lookup_attr" := VMethod cls m_lookup_attr]>
  (<["_lookup_item" := VMethod cls m_lookup_item]>
  (<["_star_import_patch" := VFunction "_star_import_patch"]>
  (<["UndefinedError" := VClass "UndefinedError"]> ∅))))).
End Lookup.

(** ** Syntax trees

    The node classes of [_ast] (Python 2.5 grammar) the rewriter dispatches
    on, with their fields in the order of [_fields].  The trees carry the
    fields of the nodes, not their positions ([lineno], [col_offset]). *)

Inductive expr_context := Load | Store | Del | AugLoad | AugStore | Param.
Inductive boolop := And | Or.
Inductive operator :=
  Add | Sub | Mult | Div | Mod | Pow | LShift | RShift | BitOr | BitXor
| BitAnd | FloorDiv.
Inductive unaryop := Invert | Not | UAdd | USub.
Inductive cmpop := Eq | NotEq | Lt | LtE | Gt | GtE | Is | IsNot | In | NotIn.

(** [arguments = (expr* args, identifier? vararg, identifier? kwarg, expr* defaults)] *)
Record arguments (E : Type) := Arguments {
  args : list E;
  vararg : option string;
  kwarg : option string;
  defaults : list E
}.
Arguments Arguments {E}.
Arguments args {E}.
Arguments vararg {E}.
Arguments kwarg {E}.
Arguments defaults {E}.

(** [comprehension = (expr target, expr iter, expr* ifs)] *)
Record comprehension (E : Type) := Comprehension {
  target : E;
  iter : E;
  ifs : list E
}.
Arguments Comprehension {E}.
Arguments target {E}.
Arguments iter {E}.
Arguments ifs {E}.

(** [slice = Ellipsis | Slice(expr? lower, expr? upper, expr? step)
           | ExtSlice(slice* dims) | Index(expr value)] *)
Inductive slice (E : Type) :=
| Ellipsis
| Slice (lower upper step : option E)
| ExtSlice (dims : list (slice E))
| Index (value : E).
Arguments Ellipsis {E}.
Arguments Slice {E}.
Arguments ExtSlice {E}.
Arguments Index {E}.

(** [alias = (identifier name, identifier? asname)] *)
Inductive alias := Alias (name : string) (asname : option string).

(** [excepthandler = (expr? type, expr? name, stmt* body)] *)
Inductive excepthandler (E S : Type) :=
  ExceptHandler (type : option E) (name : option E) (body : list S).
Arguments ExceptHandler {E S}.

Scheme All for arguments.
Scheme All for comprehension.
Scheme All for slice.
Scheme All for excepthandler.

Inductive expr :=
| BoolOp (op : boolop) (values : list expr)
| BinOp (left : expr) (op : operator) (right : expr)
| UnaryOp (op : unaryop) (operand : expr)
| Lambda (args : arguments expr) (body : expr)
| IfExp (test body orelse : expr)
| Dict (keys values : list expr)
| ListComp (elt : expr) (generators : list (comprehension expr))
| GeneratorExp (elt : expr) (generators : list (comprehension expr))
| Yield (value : option expr)
| Compare (left : expr) (ops : list cmpop) (comparators : list expr)
| Call (func : expr) (args : list expr) (keywords : list (string * expr))
       (starargs kwargs : option expr)
| Repr (value : expr)
| Num (n : Z)
| Str (s : basestring)
| Attribute (value : expr) (attr : string) (ctx : expr_context)
| Subscript (value : expr) (slice : slice expr) (ctx : expr_context)
| Name (id : string) (ctx : expr_context)
| List (elts : list expr) (ctx : expr_context)
| Tuple (elts : list expr) (ctx : expr_context).

(** The statement classes.  [Raise_] is the class [Raise].
    [StarImportPatch module] is not a class of the grammar: it is the
    statement [Expr(Call(Name('_star_import_patch'), [Name('__data__'),
    Str(module)], (), ()))] that [visitImportFrom] builds with [_new],
    whose two names have no [ctx] and whose [keywords] and [starargs] are
    empty tuples. *)
Inductive stmt :=
| FunctionDef (name : string) (args : arguments expr) (body : list stmt)
              (decorators : list expr)
| ClassDef (name : string) (bases : list expr) (body : list stmt)
| Return (value : option expr)
| Delete (targets : list expr)
| Assign (targets : list expr) (value : expr)
| AugAssign (target : expr) (op : operator) (value : expr)
| Print (dest : option expr) (values : list expr) (nl : bool)
| For (target iter : expr) (body orelse : list stmt)
| While (test : expr) (body orelse : list stmt)
| If (test : expr) (body orelse : list stmt)
| With (context_expr : expr) (optional_vars : option expr) (body : list stmt)
| Raise_ (type inst tback : option expr)
| TryExcept (body : list stmt) (handlers : list (excepthandler expr stmt))
            (orelse : list stmt)
| TryFinally (body finalbody : list stmt)
| Assert (test : expr) (msg : option expr)
| Import (names : list alias)
| ImportFrom (module : string) (names : list alias) (level : option Z)
| Exec (body : expr) (globals locals : option expr)
| Global (names : list string)
| Expr (value : expr)
| Pass
| Break
| Continue
| StarImportPatch (module : string).

(** A node of either kind. *)
Inductive AST :=
| AST_expr (node : expr)
| AST_stmt (node : stmt).

(** [mod = Module(stmt* body) | Expression(expr body)].  [wrap_tree] puts
    any node into either, so a body holds nodes of either kind; the parser
    puts statements into a [Module] and an expression into an
    [Expression]. *)
Inductive mod_ :=
| mod_Module (body : list AST)
| mod_Expression (body : AST).

(** ['eval'] and ['exec'] *)
Inductive mode := mode_eval | mode_exec.

(** The code object [_compile] returns.  The byte code and its tables are
    produced from the rewritten tree by the host's code generator, so the
    tree stands for them; [co_filename], [co_name] and [co_firstlineno]
    are the ones [_compile] sets. *)
Record CodeType := {
  co_tree : mod_;
  co_filename : string;
  co_name : string;
  co_firstlineno : Z
}.


(** ** The rewriter's state: [self.locals]

    [self.locals] is a Python list of sets of names, innermost scope last.
    A visitor method is a computation on that list which returns a value or
    raises; the list is kept in both cases, because a [finally] clause
    still runs (and pops) while an exception propagates. *)

Inductive outcome (A : Type) :=
| Returned (a : A) (locals : list (gset string))
| Raised (e : exn) (locals : list (gset string)).
Arguments Returned {A} a locals.
Arguments Raised {A} e locals.

Definition M (A : Type) : Type := list (gset string) → outcome A.

Definition ret {A} (a : A) : M A := λ locals, Returned a locals.

Definition bind {A B} (m : M A) (k : A → M B) : M B :=
  λ locals,
    match m locals with
    | Returned a locals' => k a locals'
    | Raised e locals' => Raised e locals'
    end.

Notation "x <- m ;; k" := (bind m (λ x, k))
  (at level 100, m at next level, right associativity).

(** A computation that does not touch the state. *)
Definition lift {A} (r : result A) : M A :=
  λ locals, match r with Ok a => Returned a locals | Raise e => Raised e locals end.

(** [try: body finally: final]: [final] runs on both exits; an exception of
    [final] replaces the pending one. *)
Definition try_finally {A} (body : M A) (final : M unit) : M A :=
  λ locals,
    match body locals with
    | Returned a locals' =>
        match final locals' with
        | Returned _ locals'' => Returned a locals''
        | Raised e locals'' => Raised e locals''
        end
    | Raised e locals' =>
        match final locals' with
        | Returned _ locals'' => Raised e locals''
        | Raised e' locals'' => Raised e' locals''
        end
    end.

(** [[f(x) for x in l]] *)
Definition mapM {A B} (f : A → M B) : list A → M (list B) :=
  fix go l :=
    match l with
    | [] => ret []
    | x :: l' => y <- f x ;; ys <- go l' ;; ret (y :: ys)
    end.

(** [value = self.visit(value)] for an optional field ([None] is kept). *)
Definition optM {A B} (f : A → M B) (o : option A) : M (option B) :=
  match o with
  | None => ret None
  | Some x => y <- f x ;; ret (Some y)
  end.

(** [ys = []; for x in l[::-1]: ys.append(f(x)); ys.reverse()]: the
    elements are handled last to first, the results are returned in the
    order of [l] (see [for_reversed_spec]). *)
Definition for_reversed {A B} (f : A → M B) : list A → M (list B) :=
  fix go l :=
    match l with
    | [] => ret []
    | x :: l' => ys <- go l' ;; y <- f x ;; ret (y :: ys)
    end.

(** [self.locals] *)
Definition get_locals : M (list (gset string)) := λ locals, Returned locals locals.

(** [self.locals.append(s)] *)
Definition locals_append (s : gset string) : M unit :=
  λ locals, Returned tt (locals ++ [s]).

(** [self.locals.pop()]: [IndexError] on the empty list. *)
Definition locals_pop : M unit :=
  λ locals,
    match locals with
    | [] => Raised IndexError locals
    | _ :: _ => Returned tt (removelast locals)
    end.

(** [self.locals[-1].add(name)]: [IndexError] on the empty list. *)
Definition locals_add (name : string) : M unit :=
  λ locals,
    match locals with
    | [] => Raised IndexError locals
    | _ :: _ => Returned tt (alter (λ s, {[name]} ∪ s) (length locals - 1) locals)
    end.

(** [del self.locals[-n:]] for [n >= 0].  [-0] is [0], so for [n = 0] the
    slice is the whole list; otherwise it is the last [n] entries (all of
    them when there are fewer). *)
Definition locals_del_last (n : nat) : M unit :=
  λ locals,
    Returned tt (if decide (n = 0) then [] else take (length locals - n) locals).

(** [if len(self.locals) > 1: self.locals[-1].add(name)] *)
Definition add_if_nested (name : string) : M unit :=
  locals <- get_locals ;;
  if decide (1 < length locals) then locals_add name else ret tt.

(** [CONSTANTS = frozenset(['False', 'True', 'None', 'NotImplemented', 'Ellipsis'])] *)
Definition CONSTANTS : gset string :=
  {["False"; "True"; "None"; "NotImplemented"; "Ellipsis"]}.

(** Modelled from the spec: [genshi.util.flatten], which [visitName] calls
    on [self.locals], is defined in another module of the repository.  The
    spec reads the test [node.id not in flatten(self.locals)] as "the
    identifier is not in any entry of the ScopeStack": [flatten] lists the
    members of all the entries. *)
Definition flatten (locals : list (gset string)) : list string :=
  mjoin (elements <$> locals).

(** ** The rewriter *)

(** The three transformer classes; a method that a subclass does not
    override is the one of its base class. *)
Inductive transformer :=
| ASTTransformer
| TemplateASTTransformer
| ExpressionASTTransformer.

(** [TemplateASTTransformer.__init__]: [self.locals = [CONSTANTS]] *)
Definition initial_locals : list (gset string) := [CONSTANTS].

(** [_process(node)] of [_extract_names], with the set it adds to.  On a
    tuple parameter the loop [for elt in node.elts: _process(node)] calls
    [_process] on the tuple itself again: with at least one element the
    recursion never ends and the interpreter raises [RuntimeError]. *)
Definition _process (node : expr) (arguments : gset string) : result (gset string) :=
  match node with
  | Name id _ => Ok ({[id]} ∪ arguments)
  | Tuple [] _ => Ok arguments
  | Tuple (_ :: _) _ => Raise RuntimeError
  | _ => Ok arguments
  end.

(** [getattr(node, name, None)] on an [arguments] node, for the attributes
    that hold an identifier: the node has the fields [vararg] and [kwarg]
    and no other such attribute. *)
Definition arguments_getattr (node : arguments expr) (name : string) : option string :=
  if decide (name = "vararg") then vararg node
  else if decide (name = "kwarg") then kwarg node
  else None.

(** Truth value of [getattr(node, name, None)]. *)
Definition truthy (o : option string) : bool :=
  match o with
  | Some s => negb (bool_decide (s = ""))
  | None => false
  end.

(** [TemplateASTTransformer._extract_names(self, node)].  [node.args] is a
    list, so [node.args.varargs] and [node.args.kwargs] would raise
    [AttributeError]. *)
Definition _extract_names (node : arguments expr) : result (gset string) :=
  match
    foldl (λ acc arg, match acc with Ok s => _process arg s | Raise e => Raise e end)
          (Ok ∅) (args node)
  with
  | Raise e => Raise e
  | Ok arguments =>
      if truthy (arguments_getattr node "varargs") then Raise AttributeError
      else if truthy (arguments_getattr node "kwargs") then Raise AttributeError
      else Ok arguments
  end.

(** An instance of a node class compared with the class object itself, as
    in [node.ctx == _ast.AugLoad]: never equal. *)
Definition instance_eq_class (ctx cls : expr_context) : bool := false.

Section Rewriter.
Context {host : Host}.

(** [TemplateASTTransformer.visitStr]: a [str] literal that is not ASCII
    is replaced by its [unicode] decoding, which raises when the bytes are
    not UTF-8. *)
Definition visitStr (s : basestring) : M expr :=
  match s with
  | PyStr b =>
      if is_ascii b then ret (Str s)
      else
        match decode_utf8 b with
        | Some u => ret (Str (PyUnicode u))
        | None => λ locals, Raised UnicodeDecodeError locals
        end
  | PyUnicode _ => ret (Str s)
  end.

Section Visitors.
(** The [visit] method, for the recursive calls. *)
Variable visit : expr → M expr.

(** [_clonerVisit] on [arguments]. *)
Definition visitarguments (node : arguments expr) : M (arguments expr) :=
  args' <- mapM visit (args node) ;;
  defaults' <- mapM visit (defaults node) ;;
  ret (Arguments args' (vararg node) (kwarg node) defaults').

(** [_clonerVisit] on [keyword = (identifier arg, expr value)]. *)
Definition visitkeyword (node : string * expr) : M (string * expr) :=
  value' <- visit (snd node) ;; ret (fst node, value').

(** [_clonerVisit] on [excepthandler]; [visit_stmt] is [visit] on the
    statements of its body. *)
Definition visitexcepthandler {S} (visit_stmt : S → M S)
    (node : excepthandler expr S) : M (excepthandler expr S) :=
  match node with
  | ExceptHandler type name body =>
      type' <- optM visit type ;;
      name' <- optM visit name ;;
      body' <- mapM visit_stmt body ;;
      ret (ExceptHandler type' name' body')
  end.

(** [_clonerVisit] on [comprehension]. *)
Definition visitcomprehension (node : comprehension expr) : M (comprehension expr) :=
  target' <- visit (target node) ;;
  iter' <- visit (iter node) ;;
  ifs' <- mapM visit (ifs node) ;;
  ret (Comprehension target' iter' ifs').

(** [_clonerVisit] on [Slice], [ExtSlice] and [Index]; [Ellipsis] has no
    visitor and is returned as it is. *)
Definition visitslice : slice expr → M (slice expr) :=
  fix go node :=
    match node with
    | Ellipsis => ret Ellipsis
    | Slice lower upper step =>
        lower' <- optM visit lower ;;
        upper' <- optM visit upper ;;
        step' <- optM visit step ;;
        ret (Slice lower' upper' step')
    | ExtSlice dims => dims' <- mapM go dims ;; ret (ExtSlice dims')
    | Index value => value' <- visit value ;; ret (Index value')
    end.

(** [TemplateASTTransformer.visitName] *)
Definition visitName (id : string) (ctx : expr_context) : M expr :=
  locals <- get_locals ;;
  if match ctx with Load | AugLoad => true | _ => false end
     && negb (bool_decide (id ∈ flatten locals))
  then
    let name := Name "_lookup_name" Load in
    let namearg := Name "__data__" Load in
    let strarg := Str (PyStr id) in
    ret (Call name [namearg; strarg] [] None None)
  else
    match ctx with
    | Store | AugStore => _ <- add_if_nested id ;; ret (Name id ctx)
    | _ => ret (Name id ctx)
    end.

(** [TemplateASTTransformer.visitLambda] *)
Definition visitLambda (args : arguments expr) (body : expr) : M expr :=
  names <- lift (_extract_names args) ;;
  _ <- locals_append names ;;
  try_finally
    (args' <- visitarguments args ;; body' <- visit body ;; ret (Lambda args' body'))
    locals_pop.

(** The body of the loop of [visitGeneratorExp]. *)
Definition visit_generator (generator : comprehension expr) : M (comprehension expr) :=
  _ <- locals_append ∅ ;;
  target' <- visit (target generator) ;;
  iter' <- visit (iter generator) ;;
  ifs' <- mapM visit (ifs generator) ;;
  ret (Comprehension target' iter' ifs').

(** [TemplateASTTransformer.visitGeneratorExp], also used as
    [visitListComp]; [class_] is [node.__class__]. *)
Definition visitGeneratorExp (class_ : expr → list (comprehension expr) → expr)
    (elt : expr) (generators : list (comprehension expr)) : M expr :=
  gens <- for_reversed visit_generator generators ;;
  elt' <- visit elt ;;
  let ret_ := class_ elt' gens in
  _ <- locals_del_last (length generators) ;;
  ret ret_.

(** [ExpressionASTTransformer.visitAttribute] *)
Definition visitAttribute (value : expr) (attr : string) (ctx : expr_context) : M expr :=
  if negb (instance_eq_class ctx Load) && instance_eq_class ctx AugLoad then
    value' <- visit value ;; ret (Attribute value' attr ctx)
  else
    let func := Name "_lookup_attr" Load in
    value' <- visit value ;;
    ret (Call func [value'; Str (PyStr attr)] [] None None).

(** [ExpressionASTTransformer.visitSubscript].  The second test of the
    source, on [ExtSlice], is only reached with an [Index]. *)
Definition visitSubscript (value : expr) (slice_ : slice expr) (ctx : expr_context)
  : M expr :=
  match slice_ with
  | Index index =>
      if negb (instance_eq_class ctx Load) && instance_eq_class ctx AugLoad then
        value' <- visit value ;;
        slice' <- visitslice slice_ ;;
        ret (Subscript value' slice' ctx)
      else
        ind <- visit index ;;
        let func := Name "_lookup_item" Load in
        value' <- visit value ;;
        ret (Call func [value'; Tuple [ind] Load] [] None None)
  | _ =>
      value' <- visit value ;;
      slice' <- visitslice slice_ ;;
      ret (Subscript value' slice' ctx)
  end.
End Visitors.

(** The call [_lookup_name(__data__, id)] the rewriter puts in place of a
    name. *)
Definition lookup_name_call (id : string) : expr :=
  Call (Name "_lookup_name" Load) [Name "__data__" Load; Str (PyStr id)] []
    None None.

(** [ASTTransformer.visit] on expression nodes.  The method is found by
    class name: a class without a visitor (here [Num], [Str] on the base
    class, the operator and context classes, identifiers and the other
    values that are not nodes) goes through [_visitDefault] and is returned
    as it is; [_clonerVisit] rebuilds the node from its visited [_fields],
    in their order. *)
Fixpoint visit (x : transformer) (node : expr) {struct node} : M expr :=
  match node with
  | BoolOp op values =>
      values' <- mapM (visit x) values ;; ret (BoolOp op values')
  | BinOp lhs op rhs =>
      lhs' <- visit x lhs ;; rhs' <- visit x rhs ;;
      ret (BinOp lhs' op rhs')
  | UnaryOp op operand =>
      operand' <- visit x operand ;; ret (UnaryOp op operand')
  | Lambda args body =>
      match x with
      | ASTTransformer =>
          args' <- visitarguments (visit x) args ;;
          body' <- visit x body ;;
          ret (Lambda args' body')
      | _ => visitLambda (visit x) args body
      end
  | IfExp test body orelse =>
      test' <- visit x test ;; body' <- visit x body ;;
      orelse' <- visit x orelse ;;
      ret (IfExp test' body' orelse')
  | Dict keys values =>
      keys' <- mapM (visit x) keys ;; values' <- mapM (visit x) values ;;
      ret (Dict keys' values')
  | ListComp elt generators =>
      match x with
      | ASTTransformer =>
          elt' <- visit x elt ;;
          generators' <- mapM (visitcomprehension (visit x)) generators ;;
          ret (ListComp elt' generators')
      | _ => visitGeneratorExp (visit x) ListComp elt generators
      end
  | GeneratorExp elt generators =>
      match x with
      | ASTTransformer =>
          elt' <- visit x elt ;;
          generators' <- mapM (visitcomprehension (visit x)) generators ;;
          ret (GeneratorExp elt' generators')
      | _ => visitGeneratorExp (visit x) GeneratorExp elt generators
      end
  | Yield value =>
      value' <- optM (visit x) value ;; ret (Yield value')
  | Compare lhs ops comparators =>
      lhs' <- visit x lhs ;;
      comparators' <- mapM (visit x) comparators ;;
      ret (Compare lhs' ops comparators')
  | Call func args keywords starargs kwargs =>
      func' <- visit x func ;;
      args' <- mapM (visit x) args ;;
      keywords' <- mapM (visitkeyword (visit x)) keywords ;;
      starargs' <- optM (visit x) starargs ;;
      kwargs' <- optM (visit x) kwargs ;;
      ret (Call func' args' keywords' starargs' kwargs')
  | Repr value =>
      value' <- visit x value ;; ret (Repr value')
  | Num n => ret (Num n)
  | Str s =>
      match x with
      | ASTTransformer => ret (Str s)
      | _ => visitStr s
      end
  | Attribute value attr ctx =>
      match x with
      | ExpressionASTTransformer => visitAttribute (visit x) value attr ctx
      | _ => value' <- visit x value ;; ret (Attribute value' attr ctx)
      end
  | Subscript value slice_ ctx =>
      match x with
      | ExpressionASTTransformer => visitSubscript (visit x) value slice_ ctx
      | _ =>
          value' <- visit x value ;;
          slice' <- visitslice (visit x) slice_ ;;
          ret (Subscript value' slice' ctx)
      end
  | Name id ctx =>
      match x with
      | ASTTransformer => ret (Name id ctx)
      | _ => visitName id ctx
      end
  | List elts ctx =>
      elts' <- mapM (visit x) elts ;; ret (List elts' ctx)
  | Tuple elts ctx =>
      elts' <- mapM (visit x) elts ;; ret (Tuple elts' ctx)
  end.

(** [TemplateASTTransformer.visitFunctionDef]; [cloner] is
    [ASTTransformer.visitFunctionDef(self, node)]. *)
Definition visitFunctionDef (cloner : M stmt) (name : string)
    (args : arguments expr) : M stmt :=
  _ <- add_if_nested name ;;
  names <- lift (_extract_names args) ;;
  _ <- locals_append names ;;
  try_finally cloner locals_pop.

(** [TemplateASTTransformer.visitClassDef]; [cloner] is
    [ASTTransformer.visitClassDef(self, node)]. *)
Definition visitClassDef (cloner : M stmt) (name : string) : M stmt :=
  _ <- add_if_nested name ;;
  _ <- locals_append ∅ ;;
  try_finally cloner locals_pop.

(** [TemplateASTTransformer.visitFor]; [cloner] is
    [ASTTransformer.visitFor(self, node)]. *)
Definition visitFor (cloner : M stmt) : M stmt :=
  _ <- locals_append ∅ ;;
  try_finally cloner locals_pop.

(** [[a.name for a in node.names] != ['*']] *)
Definition is_star_import (names : list alias) : bool :=
  match names with
  | [Alias name _] => bool_decide (name = "*")
  | _ => false
  end.

(** [TemplateASTTransformer.visitImportFrom]: the node itself, not a
    copy, unless the interpreter has the star-import defect and the
    statement is [from module import *]. *)
Definition visitImportFrom (module : string) (names : list alias)
    (level : option Z) : M stmt :=
  if negb has_star_import_bug || negb (is_star_import names)
  then ret (ImportFrom module names level)
  else ret (StarImportPatch module).

(** [ASTTransformer.visit] on statement nodes. *)
Fixpoint visit_stmt (x : transformer) (node : stmt) {struct node} : M stmt :=
  match node with
  | FunctionDef name args body decorators =>
      let cloner :=
        args' <- visitarguments (visit x) args ;;
        body' <- mapM (visit_stmt x) body ;;
        decorators' <- mapM (visit x) decorators ;;
        ret (FunctionDef name args' body' decorators') in
      match x with
      | ASTTransformer => cloner
      | _ => visitFunctionDef cloner name args
      end
  | ClassDef name bases body =>
      let cloner :=
        bases' <- mapM (visit x) bases ;;
        body' <- mapM (visit_stmt x) body ;;
        ret (ClassDef name bases' body') in
      match x with
      | ASTTransformer => cloner
      | _ => visitClassDef cloner name
      end
  | Return value =>
      value' <- optM (visit x) value ;; ret (Return value')
  | Delete targets =>
      targets' <- mapM (visit x) targets ;; ret (Delete targets')
  | Assign targets value =>
      targets' <- mapM (visit x) targets ;;
      value' <- visit x value ;;
      ret (Assign targets' value')
  | AugAssign target op value =>
      target' <- visit x target ;;
      value' <- visit x value ;;
      ret (AugAssign target' op value')
  | For target iter body orelse =>
      let cloner :=
        target' <- visit x target ;;
        iter' <- visit x iter ;;
        body' <- mapM (visit_stmt x) body ;;
        orelse' <- mapM (visit_stmt x) orelse ;;
        ret (For target' iter' body' orelse') in
      match x with
      | ASTTransformer => cloner
      | _ => visitFor cloner
      end
  | While test body orelse =>
      test' <- visit x test ;;
      body' <- mapM (visit_stmt x) body ;;
      orelse' <- mapM (visit_stmt x) orelse ;;
      ret (While test' body' orelse')
  | If test body orelse =>
      test' <- visit x test ;;
      body' <- mapM (visit_stmt x) body ;;
      orelse' <- mapM (visit_stmt x) orelse ;;
      ret (If test' body' orelse')
  | Print dest values nl =>
      dest' <- optM (visit x) dest ;;
      values' <- mapM (visit x) values ;;
      ret (Print dest' values' nl)
  | With context_expr optional_vars body =>
      context_expr' <- visit x context_expr ;;
      optional_vars' <- optM (visit x) optional_vars ;;
      body' <- mapM (visit_stmt x) body ;;
      ret (With context_expr' optional_vars' body')
  | Raise_ type inst tback =>
      type' <- optM (visit x) type ;;
      inst' <- optM (visit x) inst ;;
      tback' <- optM (visit x) tback ;;
      ret (Raise_ type' inst' tback')
  | TryExcept body handlers orelse =>
      body' <- mapM (visit_stmt x) body ;;
      handlers' <- mapM (visitexcepthandler (visit x) (visit_stmt x)) handlers ;;
      orelse' <- mapM (visit_stmt x) orelse ;;
      ret (TryExcept body' handlers' orelse')
  | TryFinally body finalbody =>
      body' <- mapM (visit_stmt x) body ;;
      finalbody' <- mapM (visit_stmt x) finalbody ;;
      ret (TryFinally body' finalbody')
  | Assert test msg =>
      test' <- visit x test ;;
      msg' <- optM (visit x) msg ;;
      ret (Assert test' msg')
  | Import names =>
      (* [visitalias] copies an [alias], whose fields are identifiers *)
      ret (Import names)
  | ImportFrom module names level =>
      match x with
      | ASTTransformer => ret (ImportFrom module names level)
      | _ => visitImportFrom module names level
      end
  | Exec body globals locals =>
      body' <- visit x body ;;
      globals' <- optM (visit x) globals ;;
      locals' <- optM (visit x) locals ;;
      ret (Exec body' globals' locals')
  | Global names => ret (Global names)
  | Expr value =>
      value' <- visit x value ;; ret (Expr value')
  | Pass => ret Pass
  | Break => ret Break
  | Continue => ret Continue
  | StarImportPatch module =>
      (* [visitExpr] and [visitCall] copy; the first field visited is the
         name [_star_import_patch], which has no [ctx]: the generic cloner
         skips the missing field, [TemplateASTTransformer.visitName] reads
         it. *)
      match x with
      | ASTTransformer => ret (StarImportPatch module)
      | _ => λ locals, Raised AttributeError locals
      end
  end.

(** [visit] on a node of either kind. *)
Definition visit_AST (x : transformer) (node : AST) : M AST :=
  match node with
  | AST_expr node => node' <- visit x node ;; ret (AST_expr node')
  | AST_stmt node => node' <- visit_stmt x node ;; ret (AST_stmt node')
  end.

(** [visitModule] and [visitExpression] (both [_clonerVisit]). *)
Definition visit_mod (x : transformer) (node : mod_) : M mod_ :=
  match node with
  | mod_Module body =>
      body' <- mapM (visit_AST x) body ;; ret (mod_Module body')
  | mod_Expression body =>
      body' <- visit_AST x body ;; ret (mod_Expression body')
  end.

(** ** Compilation *)

(** [wrap_tree(source, mode)].  [source] is a node, so the assertion of the
    first line holds; the node is wrapped whatever its class. *)
Definition wrap_tree (source : AST) (mode_ : mode) : mod_ :=
  match mode_ with
  | mode_eval => mod_Expression source
  | mode_exec => mod_Module [source]
  end.

(** [_compile(node, source, mode, filename, lineno, xform)].  The code
    generator ([gen.getCode()]) and the constructor of code objects are
    the host's and are taken to return: the rewritten tree stands for the
    byte code. *)
Definition _compile (node : mod_) (source : option string) (mode_ : mode)
    (filename : option basestring) (lineno : Z) (xform : option transformer)
  : result CodeType :=
  let xform :=
    match xform with
    | Some xform => xform
    | None =>
        match mode_ with
        | mode_eval => ExpressionASTTransformer
        | mode_exec => TemplateASTTransformer
        end
    end in
  match visit_mod xform node initial_locals with
  | Raised e _ => Raise e
  | Returned tree _ =>
      let filename :=
        match filename with
        | Some (PyUnicode u) => encode_utf8 u
        | Some (PyStr f) => if decide (f = "") then "<string>" else f
        | None => "<string>"
        end in
      let lineno := if decide (lineno ≤ 0)%Z then 1%Z else lineno in
      match
        match mode_ with
        | mode_eval =>
            let source :=
              match source with
              | Some source => if decide (source = "") then "?" else source
              | None => "?"
              end in
            Ok ("<Expression " ++ repr_text source ++ ">")
        | mode_exec =>
            match source with
            | None => Raise AttributeError
            | Some source =>
                let lines := splitlines source in
                let extract := default "" (head lines) in
                let extract :=
                  if decide (1 < length lines) then extract ++ " ..."
                  else extract in
                Ok ("<Suite " ++ repr_text extract ++ ">")
            end
        end
      with
      | Raise e => Raise e
      | Ok name =>
          Ok {| co_tree := tree; co_filename := filename; co_name := name;
                co_firstlineno := lineno |}
      end
  end.
End Rewriter.

(** ** Code, Expression, Suite *)

(** The concrete subclasses of [Code]. *)
Inductive code_class := Expression | Suite.

#[global] Instance code_class_eq_dec : EqDecision code_class.
Proof. solve_decision. Defined.

(** The [mode] class attribute. *)
Definition class_mode (cls : code_class) : mode :=
  match cls with
  | Expression => mode_eval
  | Suite => mode_exec
  end.

(** The [source] argument: text, or a node. *)
Inductive source_arg :=
| SourceText (s : string)
| SourceNode (node : AST).

(** The [lookup] argument: [None], a name, or a lookup class. *)
Inductive lookup_arg :=
| PyNone
| PyString (s : string)
| PyLookup (cls : lookup_class).

Module Code.
(** [__slots__ = ['source', 'code', 'ast', '_globals']], with the class of
    the instance.  [_globals] is the bound method [lookup.globals]: it is
    given by its lookup class. *)
Record t := {
  class_ : code_class;
  source : string;
  code : CodeType;
  ast : mod_;
  _globals : lookup_class
}.

Section WithHost.
Context {host : Host}.
(** [_parse(source, mode)]: the text is normalised and handed to the host
    parser. *)
Variable _parse : string → mode → result mod_.
(** [==] and [hash] on code objects. *)
Variable code_eq : CodeType → CodeType → bool.
Variable code_hash : CodeType → Z.

(** [{'lenient': LenientLookup, 'strict': StrictLookup}[lookup]] *)
Definition lookup_by_name (lookup : string) : result lookup_class :=
  if decide (lookup = "lenient") then Ok LenientLookup
  else if decide (lookup = "strict") then Ok StrictLookup
  else Raise KeyError.

(** [Code.__init__(self, source, filename=None, lineno=-1, lookup='strict',
    xform=None)].  An omitted [lookup] argument is [None] here and takes
    the default ['strict']; Python's [None] is [Some PyNone]. *)
Definition __init__ (cls : code_class) (source_ : source_arg)
    (filename : option basestring) (lineno : Z) (lookup : option lookup_arg)
    (xform : option transformer) : result t :=
  let lookup := default (PyString "strict") lookup in
  match
    match source_ with
    | SourceText s =>
        match _parse s (class_mode cls) with
        | Ok node => Ok (s, node)
        | Raise e => Raise e
        end
    | SourceNode n => Ok ("?", wrap_tree n (class_mode cls))
    end
  with
  | Raise e => Raise e
  | Ok (source', node) =>
      match
        _compile node (Some source') (class_mode cls) filename lineno xform
      with
      | Raise e => Raise e
      | Ok code_ =>
          match
            match lookup with
            | PyNone => Ok LenientLookup
            | PyString s => lookup_by_name s
            | PyLookup c => Ok c
            end
          with
          | Raise e => Raise e
          | Ok lookup' =>
              Ok {| class_ := cls; source := source'; code := code_;
                    ast := node; _globals := lookup' |}
          end
      end
  end.

(** [def __eq__(self, other):
       return (type(other) == type(self)) and (self.code == other.code)] *)
Definition __eq__ (self other : t) : bool :=
  bool_decide (class_ other = class_ self) && code_eq (code self) (code other).

(** [def __hash__(self): return hash(self.code)] *)
Definition __hash__ (self : t) : Z := code_hash (code self).

(** [def __ne__(self, other): return not self == other] *)
Definition __ne__ (self other : t) : bool := negb (__eq__ self other).
End WithHost.
End Code.

(** ** Evaluation

    [Expression.evaluate] hands the code object to the host's [eval].  The
    host evaluator is modelled on the expression forms the rewriter
    produces for a reference to a name, an attribute or an item: names,
    [str] and number literals, tuples, and calls with positional arguments
    of the three lookup methods.  On any other form [py_eval] is [None]. *)

Section Evaluation.
Variable builtin_dict : gmap string pyval.
Variable getattr : pyval → string → result pyval.
Variable hasattr_class : pyval → string → bool.
Variable getitem : pyval → pyval → result pyval.
Variable repr : pyval → string.

(** The mapping passed to [evaluate]; [VData] denotes it. *)
Variable data : gmap string pyval.
(** The [globals] and [locals] arguments of [eval]. *)
Variable globals_ locals_ : gmap string pyval.

(** Calling a value with positional arguments. *)
Definition py_call (func : pyval) (args : list pyval) : option (result pyval) :=
  match func, args with
  | VMethod cls m_lookup_name, [VData; VStr name] =>
      Some (lookup_name builtin_dict repr cls data name)
  | VMethod cls m_lookup_attr, [obj; VStr key] =>
      Some (lookup_attr getattr hasattr_class getitem repr cls obj key)
  | VMethod cls m_lookup_item, [obj; VTuple key] =>
      Some (lookup_item getattr getitem repr cls obj key)
  | _, _ => None
  end.

(** Evaluating the elements of a list, left to right. *)
Definition py_eval_list (ev : expr → option (result pyval))
  : list expr → option (result (list pyval)) :=
  fix go l :=
    match l with
    | [] => Some (Ok [])
    | e :: l' =>
        match ev e with
        | None => None
        | Some (Raise exc) => Some (Raise exc)
        | Some (Ok v) =>
            match go l' with
            | None => None
            | Some (Raise exc) => Some (Raise exc)
            | Some (Ok vs) => Some (Ok (v :: vs))
            end
        end
    end.

Fixpoint py_eval (node : expr) {struct node} : option (result pyval) :=
  match node with
  | Name id Load =>
      (* local scope, then global scope, then the built-in module *)
      match locals_ !! id with
      | Some v => Some (Ok v)
      | None =>
          match globals_ !! id with
          | Some v => Some (Ok v)
          | None =>
              match builtin_dict !! id with
              | Some v => Some (Ok v)
              | None => Some (Raise NameError)
              end
          end
      end
  | Str (PyStr s) => Some (Ok (VStr s))
  | Num n => Some (Ok (VInt n))
  | Tuple elts Load =>
      match py_eval_list py_eval elts with
      | None => None
      | Some (Raise exc) => Some (Raise exc)
      | Some (Ok vs) => Some (Ok (VTuple vs))
      end
  | Call func args [] None None =>
      match py_eval func with
      | None => None
      | Some (Raise exc) => Some (Raise exc)
      | Some (Ok f) =>
          match py_eval_list py_eval args with
          | None => None
          | Some (Raise exc) => Some (Raise exc)
          | Some (Ok vs) => py_call f vs
          end
      end
  | _ => None
  end.
End Evaluation.

Module Expression.
Section WithHost.
Variable builtin_dict : gmap string pyval.
Variable getattr : pyval → string → result pyval.
Variable hasattr_class : pyval → string → bool.
Variable getitem : pyval → pyval → result pyval.
Variable repr : pyval → string.

(** [def evaluate(self, data):
       _globals = self._globals(data)
       return eval(self.code, _globals, {'__data__': data})] *)
Definition evaluate (self : Code.t) (data : gmap string pyval)
  : option (result pyval) :=
  let _globals := globals (Code._globals self) in
  match co_tree (Code.code self) with
  | mod_Expression (AST_expr body) =>
      py_eval builtin_dict getattr hasattr_class getitem repr data
        _globals {["__data__" := VData]} body
  | _ => None
  end.
End WithHost.
End Expression.

(** An expression that consists of the identifier [id]: the node itself,
    or text the parser reads as that node. *)
Definition identifier_source (_parse : string → mode → result mod_)
    (source : source_arg) (id : string) : Prop :=
  source = SourceNode (AST_expr (Name id Load))
  ∨ ∃ text, source = SourceText text
            ∧ _parse text mode_eval
              = Ok (mod_Expression (AST_expr (Name id Load))).

(** ** Trees the rewriter completes on

    The rewriter fails on four kinds of trees: a function or lambda with a
    tuple parameter that has elements ([_extract_names] recurses without
    end); a comprehension without any clause, which no parser produces and
    on which [del self.locals[-0:]] empties the whole list of scopes; a
    [str] literal that is neither ASCII nor UTF-8, which [visitStr] fails
    to decode; and the statement [visitImportFrom] builds, whose names have
    no [ctx].  [rewritable] excludes them, whatever the transformer. *)

Section Rewritable.
Context {host : Host}.

Definition extractable (node : arguments expr) : bool :=
  forallb (λ arg, match arg with Tuple (_ :: _) _ => false | _ => true end)
          (args node).

Definition rewritable_slice (rewritable : expr → bool) : slice expr → bool :=
  fix go node :=
    match node with
    | Ellipsis => true
    | Slice lower upper step =>
        from_option rewritable true lower
        && from_option rewritable true upper
        && from_option rewritable true step
    | ExtSlice dims => forallb go dims
    | Index value => rewritable value
    end.

Definition rewritable_arguments (rewritable : expr → bool)
    (node : arguments expr) : bool :=
  extractable node
  && forallb rewritable (args node)
  && forallb rewritable (defaults node).

Definition rewritable_comprehension (rewritable : expr → bool)
    (node : comprehension expr) : bool :=
  rewritable (target node) && rewritable (iter node)
  && forallb rewritable (ifs node).

Fixpoint rewritable (node : expr) {struct node} : bool :=
  match node with
  | BoolOp _ values => forallb rewritable values
  | BinOp lhs _ rhs => rewritable lhs && rewritable rhs
  | UnaryOp _ operand => rewritable operand
  | Lambda args body => rewritable_arguments rewritable args && rewritable body
  | IfExp test body orelse =>
      rewritable test && rewritable body && rewritable orelse
  | Dict keys values => forallb rewritable keys && forallb rewritable values
  | ListComp elt generators | GeneratorExp elt generators =>
      negb (bool_decide (generators = []))
      && rewritable elt
      && forallb (rewritable_comprehension rewritable) generators
  | Yield value => from_option rewritable true value
  | Compare lhs _ comparators => rewritable lhs && forallb rewritable comparators
  | Call func args keywords starargs kwargs =>
      rewritable func && forallb rewritable args
      && forallb (λ kw, rewritable (snd kw)) keywords
      && from_option rewritable true starargs
      && from_option rewritable true kwargs
  | Repr value => rewritable value
  | Num _ | Name _ _ => true
  | Str (PyStr s) => is_ascii s || bool_decide (is_Some (decode_utf8 s))
  | Str (PyUnicode _) => true
  | Attribute value _ _ => rewritable value
  | Subscript value slice_ _ =>
      rewritable value && rewritable_slice rewritable slice_
  | List elts _ | Tuple elts _ => forallb rewritable elts
  end.

Definition rewritable_excepthandler {S} (rewritable_stmt : S → bool)
    (node : excepthandler expr S) : bool :=
  match node with
  | ExceptHandler type name body =>
      from_option rewritable true type && from_option rewritable true name
      && forallb rewritable_stmt body
  end.

Fixpoint rewritable_stmt (node : stmt) {struct node} : bool :=
  match node with
  | FunctionDef _ args body decorators =>
      rewritable_arguments rewritable args
      && forallb rewritable_stmt body && forallb rewritable decorators
  | ClassDef _ bases body =>
      forallb rewritable bases && forallb rewritable_stmt body
  | Return value => from_option rewritable true value
  | Delete targets => forallb rewritable targets
  | Assign targets value => forallb rewritable targets && rewritable value
  | AugAssign target _ value => rewritable target && rewritable value
  | For target iter body orelse =>
      rewritable target && rewritable iter
      && forallb rewritable_stmt body && forallb rewritable_stmt orelse
  | While test body orelse | If test body orelse =>
      rewritable test
      && forallb rewritable_stmt body && forallb rewritable_stmt orelse
  | Print dest values _ =>
      from_option rewritable true dest && forallb rewritable values
  | With context_expr optional_vars body =>
      rewritable context_expr && from_option rewritable true optional_vars
      && forallb rewritable_stmt body
  | Raise_ type inst tback =>
      from_option rewritable true type && from_option rewritable true inst
      && from_option rewritable true tback
  | TryExcept body handlers orelse =>
      forallb rewritable_stmt body
      && forallb (rewritable_excepthandler rewritable_stmt) handlers
      && forallb rewritable_stmt orelse
  | TryFinally body finalbody =>
      forallb rewritable_stmt body && forallb rewritable_stmt finalbody
  | Assert test msg => rewritable test && from_option rewritable true msg
  | Exec body globals locals =>
      rewritable body && from_option rewritable true globals
      && from_option rewritable true locals
  | Expr value => rewritable value
  | Import _ | ImportFrom _ _ _ | Global _ | Pass | Break | Continue => true
  | StarImportPatch _ => false
  end.

Definition rewritable_AST (node : AST) : bool :=
  match node with
  | AST_expr node => rewritable node
  | AST_stmt node => rewritable_stmt node
  end.

(** What a visitor may do to the list of scopes: leave it as it is, or,
    below at least one other entry, add names to the innermost scope. *)
Inductive frame : list (gset string) → list (gset string) → Prop :=
| frame_same locals : frame locals locals
| frame_last outer s s' :
    outer ≠ [] → s ⊆ s' → frame (outer ++ [s]) (outer ++ [s']).

(** A computation that returns, within the frame. *)
Definition balanced {A} (m : M A) : Prop :=
  ∀ locals, ∃ a locals', m locals = Returned a locals' ∧ frame locals locals'.

(** A computation that returns with [n] more scopes on the list. *)
Definition pushes {A} (n : nat) (m : M A) : Prop :=
  ∀ locals, ∃ a pushed,
    m locals = Returned a (locals ++ pushed) ∧ length pushed = n.

(** A computation that returns and leaves the list of scopes as it was. *)
Definition restores {A} (m : M A) : Prop :=
  ∀ locals, ∃ a, m locals = Returned a locals.

(** The names of the positional parameters that are plain names. *)
Definition positional_names (node : arguments expr) : gset string :=
  list_to_set
    (omap (λ arg, match arg with Name id _ => Some id | _ => None end)
          (args node)).

(** The properties proved by induction on the trees. *)
Definition visit_ok (x : transformer) (node : expr) : Prop :=
  rewritable node = true → balanced (visit x node).

Definition visit_stmt_ok (x : transformer) (node : stmt) : Prop :=
  rewritable_stmt node = true → balanced (visit_stmt x node).

Definition rewritable_mod (node : mod_) : bool :=
  match node with
  | mod_Module body => forallb rewritable_AST body
  | mod_Expression body => rewritable_AST body
  end.
End Rewritable.

(** ** A small host, for the examples

    Four objects: [VHost 0] is an empty dictionary, [VHost 1] an instance
    of a classic class without [__getitem__] (its item access raises
    [AttributeError]), [VHost 2] an instance of a class with a property
    [broken] whose getter raises [AttributeError], [VHost 3] the list
    [[1, 2, 3]]. *)

Module Toy.
Definition builtin_dict : gmap string pyval := {["len" := VHost 10]}.

Definition getattr (obj : pyval) (key : string) : result pyval :=
  match obj with
  | VHost 3 => if decide (key = "append") then Ok (VHost 11) else Raise AttributeError
  | _ => Raise AttributeError
  end.

Definition hasattr_class (obj : pyval) (key : string) : bool :=
  match obj with
  | VHost 2 => bool_decide (key = "broken")
  | VHost 3 => bool_decide (key = "append")
  | _ => false
  end.

Definition getitem (obj key : pyval) : result pyval :=
  match obj, key with
  | VHost 0, _ => Raise KeyError
  | VHost 1, _ => Raise AttributeError
  | VHost 3, VInt 0 => Ok (VInt 1)
  | VHost 3, VInt 1 => Ok (VInt 2)
  | VHost 3, VInt 2 => Ok (VInt 3)
  | VHost 3, VInt _ => Raise IndexError
  | _, _ => Raise TypeError
  end.

Definition repr (obj : pyval) : string :=
  match obj with
  | VHost 0 => "{}"
  | VHost 3 => "[1, 2, 3]"
  | VStr s => "'" ++ s ++ "'"
  | _ => "<object>"
  end.

Definition _parse (source : string) (mode_ : mode) : result mod_ :=
  if decide (source = "nothing") then
    match mode_ with
    | mode_eval => Ok (mod_Expression (AST_expr (Name "nothing" Load)))
    | mode_exec => Ok (mod_Module [AST_stmt (Expr (Name "nothing" Load))])
    end
  else Raise (HostError 0).

(** A codec that knows the two-byte encodings only, and an interpreter
    without the star-import defect. *)
Definition host : Host := {|
  decode_utf8 s :=
    match list_ascii_of_string s with
    | [a; b] =>
        if ((192 <=? N_of_ascii a) && (N_of_ascii a <? 224)
            && (128 <=? N_of_ascii b) && (N_of_ascii b <? 192))%N
        then Some [((N_of_ascii a - 192) * 64 + (N_of_ascii b - 128))%N]
        else None
    | _ => None
    end;
  encode_utf8 u := if decide (u = []) then "" else "?";
  repr_text s := "'" ++ s ++ "'";
  splitlines s := if decide (s = "") then [] else [s];
  has_star_import_bug := false
|}.

(** The two bytes of the UTF-8 encoding of U+00E9. *)
Definition e_acute : string := String "195" (String "169" EmptyString).

(** The attributes of an [Undefined] that come from its class: any bound
    method is [VHost 20], and [object] provides [__class__]. *)
Definition bound (self : Undefined.t) (attr : string) : pyval := VHost 20.

Definition object_attribute (self : Undefined.t) (attr : string)
  : option pyval :=
  if decide (attr = "__class__") then Some (VClass "Undefined") else None.

(** Code objects compared and hashed by their first line. *)
Definition code_eq (a b : CodeType) : bool :=
  bool_decide (co_firstlineno a = co_firstlineno b).

Definition code_hash (a : CodeType) : Z := co_firstlineno a.
End Toy.

(** * Properties *)

(** ** The Undefined sentinel *)

(** C6, amended.  An [Undefined] is false, iterates as the empty sequence
    and prints as ["undefined"]; calling it, subscripting it, or reading an
    attribute that the normal lookup does not find (any name but its slots
    [_name] and [_owner], the names its class binds and those [object]
    provides) raises an [UndefinedError] whose message is
    ["<key>" not defined] when no owner was recorded and
    [<owner> has no member named "<key>"] when one was. *)
Theorem Undefined_sentinel (repr : pyval → string)
    (bound : Undefined.t → string → pyval)
    (object_attribute : Undefined.t → string → option pyval)
    (key : string) (owner : pyval) (args : list pyval) (attr : string)
    (index : pyval) :
  attr ≠ "_name" → attr ≠ "_owner" →
  attr ∉ Undefined.class_body →
  (∀ u, object_attribute u attr = None) →
  let getattribute := Undefined.getattribute repr bound object_attribute in
  let free := Undefined.__init__ key None in
  let member := Undefined.__init__ key (Some owner) in
  (∀ u, Undefined.__nonzero__ u = false
        ∧ Undefined.__iter__ u = []
        ∧ Undefined.__str__ u = "undefined")
  ∧ (let message := dquote ++ key ++ dquote ++ " not defined" in
     Undefined.__call__ repr free args = Raise (UndefinedError message)
     ∧ getattribute free attr = Raise (UndefinedError message)
     ∧ Undefined.__getitem__ repr free index = Raise (UndefinedError message))
  ∧ (let message :=
       repr owner ++ " has no member named " ++ dquote ++ key ++ dquote in
     Undefined.__call__ repr member args = Raise (UndefinedError message)
     ∧ getattribute member attr = Raise (UndefinedError message)
     ∧ Undefined.__getitem__ repr member index = Raise (UndefinedError message)).
Proof.
  intros Hname Howner Hclass Hobject. cbv zeta.
  assert (∀ u, Undefined.getattribute repr bound object_attribute u attr
               = Raise (UndefinedError
                          (UndefinedError.__init__ repr (Undefined._name u)
                             (Undefined._owner u)))) as Hread.
  { intros u. unfold Undefined.getattribute.
    rewrite !decide_False by done.
    rewrite bool_decide_eq_false_2 by done. by rewrite Hobject. }
  split; [|split].
  - intros u. by repeat split.
  - rewrite Hread. by repeat split.
  - rewrite Hread. by repeat split.
Qed.

(** ** Lookup policies *)

Section LookupProperties.
Variable builtin_dict : gmap string pyval.
Variable getattr : pyval → string → result pyval.
Variable hasattr_class : pyval → string → bool.
Variable getitem : pyval → pyval → result pyval.
Variable repr : pyval → string.

#[local] Abbreviation BUILTINS := (BUILTINS builtin_dict).
#[local] Abbreviation undefined := (undefined repr).
#[local] Abbreviation lookup_name := (lookup_name builtin_dict repr).
#[local] Abbreviation lookup_attr := (lookup_attr getattr hasattr_class getitem repr).
#[local] Abbreviation lookup_item := (lookup_item getattr getitem repr).

Lemma BUILTINS_lookup (name : string) :
  BUILTINS !! name =
    if decide (name = "Undefined") then Some (VClass "Undefined")
    else if decide (name = "Markup") then Some (VClass "Markup")
    else builtin_dict !! name.
Proof.
  unfold BUILTINS. rewrite !lookup_insert.
  repeat case_decide; congruence.
Qed.

Lemma undefined_lenient (key : string) (owner : option pyval) :
  undefined LenientLookup key owner = Ok (VUndefined key owner).
Proof. reflexivity. Qed.

Lemma undefined_strict (key : string) (owner : option pyval) :
  undefined StrictLookup key owner
  = Raise (UndefinedError (UndefinedError.__init__ repr key owner)).
Proof. reflexivity. Qed.

(** C5.  [lookup_name] returns the entry of the context when there is one,
    else the entry of the built-in namespace (the host's built-ins, plus
    [Markup] and [Undefined]) when there is one, else the result of
    [undefined(name)]; so a built-in is found without being in the context,
    and an entry of the context shadows a built-in of the same name. *)
Theorem lookup_name_spec (cls : lookup_class) (data : gmap string pyval)
    (name : string) :
  (∀ val, data !! name = Some val → lookup_name cls data name = Ok val)
  ∧ (∀ val, data !! name = None → BUILTINS !! name = Some val →
       lookup_name cls data name = Ok val)
  ∧ (data !! name = None → BUILTINS !! name = None →
       lookup_name cls data name = undefined cls name None)
  ∧ BUILTINS !! "Markup" = Some (VClass "Markup")
  ∧ BUILTINS !! "Undefined" = Some (VClass "Undefined")
  ∧ (name ≠ "Markup" → name ≠ "Undefined" →
       BUILTINS !! name = builtin_dict !! name)
  ∧ (∀ val, builtin_dict !! name = Some val →
       name ≠ "Markup" → name ≠ "Undefined" →
       lookup_name cls ∅ name = Ok val)
  ∧ (∀ val builtin, BUILTINS !! name = Some builtin →
       lookup_name cls (<[name := val]> data) name = Ok val).
Proof.
  unfold lookup_name. repeat split.
  - by intros val ->.
  - by intros val -> ->.
  - by intros -> ->.
  - rewrite BUILTINS_lookup. by repeat case_decide.
  - rewrite BUILTINS_lookup. by repeat case_decide.
  - intros ??. rewrite BUILTINS_lookup. by repeat case_decide.
  - intros val Hval ??. rewrite lookup_empty, BUILTINS_lookup.
    repeat case_decide; try done. by rewrite Hval.
  - intros val builtin _. by rewrite lookup_insert_eq.
Qed.

(** What [lookup_attr] does, case by case.  It returns the native attribute
    when the access succeeds.  When the access fails with [AttributeError] and the
    class of the object does not have the attribute, it falls back to
    [obj[key]]; when that fails with [KeyError] or [TypeError] the result is
    that of [undefined(key, owner=obj)], and any other exception of the item
    access propagates.  When the class has the attribute, or the access
    raised anything but [AttributeError], the exception propagates
    unchanged. *)
Theorem lookup_attr_spec (cls : lookup_class) (obj : pyval) (key : string) :
  (∀ val, getattr obj key = Ok val → lookup_attr cls obj key = Ok val)
  ∧ (getattr obj key = Raise AttributeError → hasattr_class obj key = false →
       (∀ val, getitem obj (VStr key) = Ok val →
          lookup_attr cls obj key = Ok val)
       ∧ (∀ e, getitem obj (VStr key) = Raise e → e = KeyError ∨ e = TypeError →
            lookup_attr cls obj key = undefined cls key (Some obj))
       ∧ (∀ e, getitem obj (VStr key) = Raise e → e ≠ KeyError → e ≠ TypeError →
            lookup_attr cls obj key = Raise e))
  ∧ (∀ e, getattr obj key = Raise e → hasattr_class obj key = true →
       lookup_attr cls obj key = Raise e)
  ∧ (∀ e, getattr obj key = Raise e → e ≠ AttributeError →
       lookup_attr cls obj key = Raise e).
Proof.
  unfold lookup_attr. split; [|split; [|split]].
  - by intros val ->.
  - intros Hattr Hclass. rewrite Hattr, Hclass. split; [|split].
    + by intros val ->.
    + by intros e -> [-> | ->].
    + intros e -> ??. by destruct e.
  - intros e -> ->. by destruct e.
  - intros e -> ?. by destruct e.
Qed.

(** C3: a defect of the code.  When the attribute is absent and the item
    access fails because the object has no item access at all
    ([AttributeError], as on an instance of a classic class) or because an
    index is out of range ([IndexError]), [lookup_attr] lets the exception
    of the item access through: its [except] clause lists [KeyError] and
    [TypeError] only.  [lookup_item], on the same object and key, catches
    these classes too and gives the outcome of
    [undefined(key, owner=obj)], which is what the docstrings of the two
    policies promise for a non-existing attribute of an existing object. *)
Theorem lookup_attr_item_failure (cls : lookup_class) (obj : pyval)
    (key : string) (e : exn) :
  getattr obj key = Raise AttributeError →
  hasattr_class obj key = false →
  getitem obj (VStr key) = Raise e →
  e = AttributeError ∨ e = IndexError →
  lookup_attr cls obj key = Raise e
  ∧ lookup_item cls obj [VStr key] = undefined cls key (Some obj).
Proof.
  intros Hattr Hclass Hitem He. unfold lookup_attr, lookup_item, getattr_default.
  change (single_key [VStr key]) with (VStr key).
  rewrite Hattr, Hclass, Hitem.
  destruct He as [-> | ->]; cbn; by rewrite Hattr.
Qed.

Lemma single_key_one (k : pyval) : single_key [k] = k.
Proof. reflexivity. Qed.

Lemma single_key_other (keys : list pyval) :
  length keys ≠ 1 → single_key keys = VTuple keys.
Proof. intros ?. unfold single_key. by case_decide. Qed.


(** Exceptions of the item access that the [except] clause does not list
    propagate, whatever the key. *)
Lemma lookup_item_other_exception (cls : lookup_class) (obj : pyval)
    (keys : list pyval) (e : exn) :
  getitem obj (single_key keys) = Raise e → item_failure e = false →
  lookup_item cls obj keys = Raise e.
Proof. unfold lookup_item. by intros -> ->. Qed.
End LookupProperties.

(** ** Names in scope *)

Lemma elem_of_flatten (id : string) (locals : list (gset string)) :
  id ∈ flatten locals ↔ ∃ s, s ∈ locals ∧ id ∈ s.
Proof.
  unfold flatten. rewrite list_elem_of_join. split.
  - intros (l & Hid & Hl). apply list_elem_of_fmap in Hl as (s & -> & Hs).
    exists s. split; [done|]. by apply elem_of_elements.
  - intros (s & Hs & Hid). exists (elements s). split.
    + by apply elem_of_elements.
    + apply list_elem_of_fmap. by exists s.
Qed.

Lemma elem_of_flatten_initial (id : string) :
  id ∈ flatten initial_locals ↔ id ∈ CONSTANTS.
Proof.
  rewrite elem_of_flatten. unfold initial_locals. split.
  - intros (s & Hs & Hid). apply list_elem_of_singleton in Hs. by subst.
  - intros Hid. exists CONSTANTS. split; [|done]. by apply list_elem_of_singleton.
Qed.

(** [visitName] on a read: the name is replaced by the lookup call exactly
    when it is in no scope of [self.locals]; the scopes are unchanged. *)
Lemma visitName_load (id : string) (ctx : expr_context)
    (locals : list (gset string)) :
  ctx = Load ∨ ctx = AugLoad →
  visitName id ctx locals
  = Returned (if bool_decide (Exists (λ s, id ∈ s) locals) then Name id ctx
              else lookup_name_call id) locals.
Proof.
  intros Hctx. unfold visitName, bind, get_locals.
  assert (bool_decide (id ∈ flatten locals)
          = bool_decide (Exists (λ s, id ∈ s) locals)) as ->.
  { apply bool_decide_ext. rewrite elem_of_flatten, Exists_exists. done. }
  destruct Hctx as [-> | ->]; by case_bool_decide.
Qed.

(** ** Evaluating a name *)

Section EvaluationProperties.
Context {host : Host}.
Variable builtin_dict : gmap string pyval.
Variable getattr : pyval → string → result pyval.
Variable hasattr_class : pyval → string → bool.
Variable getitem : pyval → pyval → result pyval.
Variable repr : pyval → string.
Variable _parse : string → mode → result mod_.

#[local] Abbreviation evaluate :=
  (Expression.evaluate builtin_dict getattr hasattr_class getitem repr).
#[local] Abbreviation eval_ :=
  (py_eval builtin_dict getattr hasattr_class getitem repr).

Lemma globals_lookup_name (cls : lookup_class) :
  globals cls !! "_lookup_name" = Some (VMethod cls m_lookup_name).
Proof. by destruct cls. Qed.

(** The call that replaces a name evaluates to [lookup_name] on the
    context. *)
Lemma py_eval_lookup_name_call (cls : lookup_class)
    (data : gmap string pyval) (id : string) :
  eval_ data (globals cls) {["__data__" := VData]} (lookup_name_call id)
  = Some (lookup_name builtin_dict repr cls data id).
Proof.
  unfold lookup_name_call. cbn [py_eval py_eval_list].
  assert (({["__data__" := VData]} : gmap string pyval) !! "_lookup_name" = None)
    as -> by done.
  assert (({["__data__" := VData]} : gmap string pyval) !! "__data__" = Some VData)
    as -> by done.
  by rewrite globals_lookup_name.
Qed.

(** Such an expression compiles to the lookup call when the identifier is
    not one of the constants. *)
Lemma compile_identifier (source : source_arg) (id : string)
    (filename : option basestring) (lineno : Z) (lookup : string)
    (cls : lookup_class) :
  identifier_source _parse source id → id ∉ CONSTANTS →
  Code.lookup_by_name lookup = Ok cls →
  ∃ c, Code.__init__ _parse Expression source filename lineno
         (Some (PyString lookup)) None = Ok c
       ∧ co_tree (Code.code c)
         = mod_Expression (AST_expr (lookup_name_call id))
       ∧ Code._globals c = cls.
Proof.
  intros Hsource Hid Hcls. unfold Code.__init__.
  assert (∀ text, ∃ code_,
            _compile (mod_Expression (AST_expr (Name id Load))) (Some text)
              mode_eval filename lineno None = Ok code_
            ∧ co_tree code_ = mod_Expression (AST_expr (lookup_name_call id)))
    as Hcompile.
  { intros text. unfold _compile, visit_mod, visit_AST, bind. cbn [visit].
    rewrite visitName_load by auto.
    rewrite bool_decide_eq_false_2.
    - eexists. split; reflexivity.
    - rewrite Exists_exists. intros (s & Hs & Hin). apply Hid.
      apply elem_of_flatten_initial, elem_of_flatten. eauto. }
  destruct Hsource as [-> | (text & -> & Hparse)]; cbn [class_mode wrap_tree];
    change (default (PyString "strict") (Some (PyString lookup))) with (PyString lookup).
  - destruct (Hcompile "?") as (code_ & -> & Htree). rewrite Hcls. eauto.
  - rewrite Hparse. destruct (Hcompile text) as (code_ & -> & Htree).
    rewrite Hcls. eauto.
Qed.

(** C1, as amended.  For an identifier that is in no local scope (here:
    not one of the constants of the initial scope), absent from the
    context and absent from the built-in namespace, the expression that
    consists of that identifier evaluates under the lenient policy to an
    [Undefined] (of that name, without owner) that prints as ["undefined"]
    and is false, and under the strict policy raises the [UndefinedError]
    ["<id>" not defined]. *)
Theorem evaluate_unbound_name (source : source_arg) (id : string)
    (filename : option basestring) (lineno : Z) (data : gmap string pyval) :
  identifier_source _parse source id →
  id ∉ CONSTANTS →
  data !! id = None →
  BUILTINS builtin_dict !! id = None →
  ∃ lenient strict,
    Code.__init__ _parse Expression source filename lineno
      (Some (PyString "lenient")) None = Ok lenient
    ∧ Code.__init__ _parse Expression source filename lineno
        (Some (PyString "strict")) None = Ok strict
    ∧ (∃ u, evaluate lenient data = Some (Ok (Undefined.to_pyval u))
            ∧ Undefined._name u = id
            ∧ Undefined._owner u = None
            ∧ Undefined.__str__ u = "undefined"
            ∧ Undefined.__nonzero__ u = false)
    ∧ evaluate strict data
      = Some (Raise (UndefinedError (dquote ++ id ++ dquote ++ " not defined"))).
Proof.
  intros Hsource Hid Hdata Hbuiltin.
  destruct (compile_identifier source id filename lineno "lenient" LenientLookup)
    as (lenient & Hlenient & Htree & Hglobals); [done..|].
  destruct (compile_identifier source id filename lineno "strict" StrictLookup)
    as (strict & Hstrict & Htree' & Hglobals'); [done..|].
  exists lenient, strict. split; [done|]. split; [done|].
  unfold Expression.evaluate.
  rewrite Htree, Htree', Hglobals, Hglobals', !py_eval_lookup_name_call.
  unfold lookup_name. rewrite Hdata, Hbuiltin. split; [|done].
  by exists (Undefined.__init__ id None).
Qed.
End EvaluationProperties.

(** ** Construction and comparison of code *)

Section CodeProperties.
Context {host : Host}.
Variable _parse : string → mode → result mod_.
Variable code_eq : CodeType → CodeType → bool.
Variable code_hash : CodeType → Z.

(** C9.  Where the construction of an [Expression] or [Suite] succeeds with
    the [lookup] argument left out, the policy is the strict one; the same
    construction with [lookup=None] succeeds too, gives the same code, and
    its policy is the lenient one. *)
Theorem Code_init_lookup_None (cls : code_class) (source : source_arg)
    (filename : option basestring) (lineno : Z) (xform : option transformer)
    (c : Code.t) :
  Code.__init__ _parse cls source filename lineno None xform = Ok c →
  Code._globals c = StrictLookup
  ∧ ∃ c', Code.__init__ _parse cls source filename lineno (Some PyNone) xform
          = Ok c'
          ∧ Code._globals c' = LenientLookup
          ∧ Code.class_ c' = Code.class_ c
          ∧ Code.source c' = Code.source c
          ∧ Code.ast c' = Code.ast c
          ∧ Code.code c' = Code.code c.
Proof.
  unfold Code.__init__.
  change (default (PyString "strict") None) with (PyString "strict").
  change (default (PyString "strict") (Some PyNone)) with PyNone.
  destruct (match source with
            | SourceText s => _
            | SourceNode n => _
            end) as [[source' node]|e]; [|done].
  destruct (_compile node (Some source') (class_mode cls) filename lineno xform)
    as [code_|e]; [|done].
  change (Code.lookup_by_name "strict") with (@Ok lookup_class StrictLookup).
  intros [= <-]. split; [done|]. eexists. by split.
Qed.

(** The hash of code objects agrees with their equality, as the host
    guarantees. *)
Hypothesis code_hash_eq :
  ∀ a b, code_eq a b = true → code_hash a = code_hash b.

(** C10.  Two [Code] objects are equal exactly when they are of the same
    class and their code objects are equal; an [Expression] is never equal
    to a [Suite]; the hash is the hash of the code object, so equal objects
    have equal hashes. *)
Theorem Code_eq_hash (self other : Code.t) :
  (Code.__eq__ code_eq self other = true
   ↔ Code.class_ other = Code.class_ self
     ∧ code_eq (Code.code self) (Code.code other) = true)
  ∧ (Code.class_ self = Expression → Code.class_ other = Suite →
     Code.__eq__ code_eq self other = false
     ∧ Code.__eq__ code_eq other self = false)
  ∧ Code.__hash__ code_hash self = code_hash (Code.code self)
  ∧ (Code.__eq__ code_eq self other = true →
     Code.__hash__ code_hash self = Code.__hash__ code_hash other)
  ∧ Code.__ne__ code_eq self other = negb (Code.__eq__ code_eq self other).
Proof.
  unfold Code.__eq__, Code.__hash__, Code.__ne__.
  split; [|split; [|split; [|split]]].
  - rewrite andb_true_iff, bool_decide_eq_true. done.
  - intros Hself Hother. rewrite Hself, Hother. done.
  - done.
  - rewrite andb_true_iff. intros [_ Hcode]. by apply code_hash_eq.
  - done.
Qed.
End CodeProperties.

(** ** The scopes during a rewrite *)

#[local] Open Scope list_scope.
#[local] Set Warnings "-clear-no-such-hyp".

Section ScopeProperties.
Context {host : Host}.

Lemma frame_refl (locals : list (gset string)) : frame locals locals.
Proof. constructor. Qed.

Lemma frame_inv_last (outer : list (gset string)) (s : gset string)
    (locals' : list (gset string)) :
  frame (outer ++ [s]) locals' → ∃ s', locals' = outer ++ [s'] ∧ s ⊆ s'.
Proof.
  inversion 1 as [|outer' s0 s' Hne Hsub Heq]; [by eauto|].
  apply app_inj_tail in Heq as [-> ->]. eauto.
Qed.

Lemma frame_trans (a b c : list (gset string)) :
  frame a b → frame b c → frame a c.
Proof.
  intros Hab Hbc. destruct Hab as [|outer s s' Hne Hsub]; [done|].
  apply frame_inv_last in Hbc as (s'' & -> & Hsub').
  constructor; [done|]. set_solver.
Qed.

Lemma frame_length (locals locals' : list (gset string)) :
  frame locals locals' → length locals' = length locals.
Proof. destruct 1; [done|]. by rewrite !length_app. Qed.

(** A list of one scope, as the initial one, is not changed. *)
Lemma frame_single (s : gset string) (locals' : list (gset string)) :
  frame [s] locals' → locals' = [s].
Proof.
  inversion 1 as [|outer s0 s' Hne Hsub Heq]; [done|].
  destruct outer as [|? [|??]]; done.
Qed.

(** Above [n] pushed scopes a visitor leaves the entries below alone. *)
Lemma frame_inv_pushed (locals pushed locals' : list (gset string)) :
  pushed ≠ [] → frame (locals ++ pushed) locals' →
  ∃ pushed', locals' = locals ++ pushed' ∧ length pushed' = length pushed.
Proof.
  intros Hne. destruct pushed as [|s pushed _] using rev_ind; [done|].
  rewrite app_assoc. intros (s' & -> & _)%frame_inv_last.
  exists (pushed ++ [s']). by rewrite app_assoc, !length_app.
Qed.

Lemma balanced_ret {A} (a : A) : balanced (ret a).
Proof. intros locals. exists a, locals. split; [done|]. apply frame_refl. Qed.

Lemma balanced_bind {A B} (m : M A) (k : A → M B) :
  balanced m → (∀ a, balanced (k a)) → balanced (bind m k).
Proof.
  intros Hm Hk locals. unfold bind.
  destruct (Hm locals) as (a & locals' & -> & Hframe).
  destruct (Hk a locals') as (b & locals'' & -> & Hframe').
  exists b, locals''. split; [done|]. by eapply frame_trans.
Qed.

Lemma balanced_mapM {A B} (f : A → M B) (l : list A) :
  Forall (λ x, balanced (f x)) l → balanced (mapM f l).
Proof.
  induction 1 as [|x l Hx _ IH]; cbn [mapM].
  - apply balanced_ret.
  - apply balanced_bind; [done|]. intros y.
    apply balanced_bind; [done|]. intros ys. apply balanced_ret.
Qed.

Lemma balanced_optM {A B} (f : A → M B) (o : option A) :
  (∀ x, o = Some x → balanced (f x)) → balanced (optM f o).
Proof.
  intros Hf. destruct o as [x|]; cbn [optM].
  - apply balanced_bind; [by apply Hf|]. intros y. apply balanced_ret.
  - apply balanced_ret.
Qed.

Lemma alter_last {A} (f : A → A) (outer : list A) (s : A) :
  alter f (length (outer ++ [s]) - 1) (outer ++ [s]) = outer ++ [f s].
Proof.
  rewrite length_app. cbn [length].
  replace (length outer + 1 - 1) with (length outer + 0) by lia.
  by rewrite alter_app_r.
Qed.

Lemma balanced_add_if_nested (name : string) : balanced (add_if_nested name).
Proof.
  intros locals. unfold add_if_nested, bind, get_locals.
  case_decide as Hlen; [|eexists _, _; split; [done|apply frame_refl]].
  destruct locals as [|s outer _] using rev_ind; [cbn in Hlen; lia|].
  unfold locals_add. destruct (outer ++ [s]) as [|s0 l] eqn:Heq.
  { by destruct outer. }
  rewrite <- Heq in *. rewrite alter_last. eexists _, _. split; [done|].
  apply frame_last; [|set_solver]. intros ->. cbn in Hlen. lia.
Qed.

Lemma balanced_visitName (id : string) (ctx : expr_context) :
  balanced (visitName id ctx).
Proof.
  unfold visitName. apply balanced_bind.
  { intros locals. exists locals, locals. split; [done|apply frame_refl]. }
  intros locals. destruct (_ && _); [apply balanced_ret|].
  destruct ctx; try apply balanced_ret;
    (apply balanced_bind; [apply balanced_add_if_nested|intros; apply balanced_ret]).
Qed.

Lemma restores_balanced {A} (m : M A) : restores m → balanced m.
Proof.
  intros Hm locals. destruct (Hm locals) as (a & ->).
  exists a, locals. split; [done|]. apply frame_refl.
Qed.

(** [append(s); try: body finally: pop()] leaves the list as it found it. *)
Lemma restores_scoped {A} (s : gset string) (body : M A) :
  balanced body →
  restores (_ <- locals_append s ;; try_finally body locals_pop).
Proof.
  intros Hbody locals. unfold bind, locals_append, try_finally.
  destruct (Hbody (locals ++ [s])) as (a & locals' & -> & Hframe).
  apply frame_inv_last in Hframe as (s' & -> & _).
  exists a. unfold locals_pop.
  destruct (locals ++ [s']) as [|s0 l] eqn:Heq; [by destruct locals|].
  by rewrite <- Heq, removelast_last.
Qed.

Lemma arguments_getattr_varargs (node : arguments expr) :
  arguments_getattr node "varargs" = None.
Proof. unfold arguments_getattr. by repeat case_decide. Qed.

Lemma arguments_getattr_kwargs (node : arguments expr) :
  arguments_getattr node "kwargs" = None.
Proof. unfold arguments_getattr. by repeat case_decide. Qed.

(** On parameters without tuples [_extract_names] returns the names of the
    positional parameters, and nothing else. *)
Lemma _extract_names_spec (node : arguments expr) :
  extractable node = true → _extract_names node = Ok (positional_names node).
Proof.
  unfold extractable, _extract_names, positional_names.
  rewrite arguments_getattr_varargs, arguments_getattr_kwargs. cbn [truthy].
  intros Hargs.
  enough (∀ acc,
    foldl (λ acc arg, match acc with Ok s => _process arg s | Raise e => Raise e end)
      (Ok acc) (args node)
    = Ok (list_to_set
            (omap (λ arg, match arg with Name id _ => Some id | _ => None end)
                  (args node)) ∪ acc)) as ->.
  { f_equal. set_solver. }
  induction (args node) as [|arg l IH]; intros acc; cbn [foldl omap].
  - f_equal. set_solver.
  - cbn [forallb] in Hargs. apply andb_prop in Hargs as [Harg Hl].
    destruct arg as [| | | | | | | | | | | | | | | |id ctx| |[|elt elts] ctx];
      cbn [_process] in *; try done; rewrite IH by done; f_equal; set_solver.
Qed.

Lemma pushes_visit_generator (visit : expr → M expr)
    (generator : comprehension expr) :
  balanced (visit (target generator)) →
  balanced (visit (iter generator)) →
  Forall (λ e, balanced (visit e)) (ifs generator) →
  pushes 1 (visit_generator visit generator).
Proof.
  intros Htarget Hiter Hifs locals.
  assert (balanced (
    target' <- visit (target generator) ;;
    iter' <- visit (iter generator) ;;
    ifs' <- mapM visit (ifs generator) ;;
    ret (Comprehension target' iter' ifs'))) as Hbody.
  { apply balanced_bind; [done|]. intros ?.
    apply balanced_bind; [done|]. intros ?.
    apply balanced_bind; [by apply balanced_mapM|]. intros ?.
    apply balanced_ret. }
  destruct (Hbody (locals ++ [∅])) as (g & locals' & Hg & Hframe).
  apply frame_inv_last in Hframe as (s' & -> & _).
  exists g, [s']. split; [|done].
  unfold visit_generator, bind at 1, locals_append. exact Hg.
Qed.

Lemma pushes_for_reversed {A B} (f : A → M B) (l : list A) :
  Forall (λ x, pushes 1 (f x)) l → pushes (length l) (for_reversed f l).
Proof.
  induction 1 as [|x l Hx _ IH]; intros locals; cbn [for_reversed].
  - exists [], []. by rewrite app_nil_r.
  - unfold bind. destruct (IH locals) as (ys & pushed & -> & Hlen).
    destruct (Hx (locals ++ pushed)) as (y & pushed' & -> & Hlen').
    exists (y :: ys), (pushed ++ pushed').
    rewrite app_assoc, length_app. split; [done|]. cbn [length]. lia.
Qed.

(** After the whole comprehension the scopes of its clauses are gone. *)
Lemma restores_visitGeneratorExp (visit : expr → M expr)
    (class_ : expr → list (comprehension expr) → expr) (elt : expr)
    (generators : list (comprehension expr)) :
  generators ≠ [] →
  balanced (visit elt) →
  Forall (λ g, pushes 1 (visit_generator visit g)) generators →
  restores (visitGeneratorExp visit class_ elt generators).
Proof.
  intros Hne Helt Hgens locals. unfold visitGeneratorExp, bind.
  destruct (pushes_for_reversed _ _ Hgens locals) as (gens & pushed & -> & Hlen).
  destruct (Helt (locals ++ pushed)) as (elt' & locals' & -> & Hframe).
  apply frame_inv_pushed in Hframe as (pushed' & -> & Hlen').
  2: { intros ->. by destruct generators. }
  exists (class_ elt' gens). unfold locals_del_last, ret.
  rewrite decide_False by (by destruct generators).
  rewrite length_app, Hlen', Hlen.
  replace (length locals + length generators - length generators)
    with (length locals) by lia.
  by rewrite take_app_length.
Qed.

(** *** The rewriter completes, within the frame *)

Lemma list_all_Forall {A} (P Q : A → Prop) (R : A → bool) (l : list A) :
  (∀ x, P x → R x = true → Q x) →
  list_all A P l → forallb R l = true → Forall Q l.
Proof.
  intros HPQ Hall. induction Hall as [|x Hx l _ IH]; intros HR; [done|].
  cbn [forallb] in HR. apply andb_prop in HR as [??]. constructor; auto.
Qed.

Lemma list_all_Forall_nested {A} (P : A → Type) (Q : A → Prop) (R : A → bool)
    (l : list A) :
  (∀ x, P x → R x = true → Q x) →
  list_all A P l → forallb R l = true → Forall Q l.
Proof.
  intros HPQ Hall. induction Hall as [|x Hx l _ IH]; intros HR; [done|].
  cbn [forallb] in HR. apply andb_prop in HR as [??]. constructor; auto.
Qed.

Lemma balanced_visit_list (x : transformer) (l : list expr) :
  list_all expr (visit_ok x) l → forallb rewritable l = true →
  Forall (λ e, balanced (visit x e)) l.
Proof. apply list_all_Forall. auto. Qed.

Lemma balanced_visit_option (x : transformer) (o : option expr) :
  option_all expr (visit_ok x) o → from_option rewritable true o = true →
  balanced (optM (visit x) o).
Proof.
  intros Hall Ho. apply balanced_optM. intros e ->.
  inversion Hall; subst. auto.
Qed.

Lemma balanced_visitslice (x : transformer) (node : slice expr) :
  slice_all expr (visit_ok x) node → rewritable_slice rewritable node = true →
  balanced (visitslice (visit x) node).
Proof.
  induction node as [|lower upper step|dims IH|value] using slice_ind;
    intros Hall Hnode; cbn [visitslice rewritable_slice] in *.
  - apply balanced_ret.
  - inversion Hall; subst.
    apply andb_prop in Hnode as [[??]%andb_prop ?].
    repeat (apply balanced_bind; [by apply balanced_visit_option|intros ?]).
    apply balanced_ret.
  - apply balanced_bind; [|intros; apply balanced_ret].
    apply balanced_mapM. inversion Hall as [| |dims' Hdims|]; subst. clear Hall.
    induction IH as [|d Hd dims _ IHdims]; [done|].
    inversion Hdims; subst. cbn [forallb] in Hnode.
    apply andb_prop in Hnode as [??]. constructor; auto.
  - inversion Hall; subst.
    apply balanced_bind; [auto|intros; apply balanced_ret].
Qed.

Lemma balanced_visitarguments (x : transformer) (node : arguments expr) :
  arguments_all expr (visit_ok x) node →
  rewritable_arguments rewritable node = true →
  balanced (visitarguments (visit x) node).
Proof.
  intros Hall Hnode. unfold rewritable_arguments in Hnode.
  unfold visitarguments. destruct Hall as [a Ha v k d Hd].
  cbn [args defaults vararg kwarg] in *.
  apply andb_prop in Hnode as [[??]%andb_prop ?].
  repeat (apply balanced_bind;
          [by apply balanced_mapM, balanced_visit_list|intros ?]).
  apply balanced_ret.
Qed.

Lemma balanced_visitcomprehension (x : transformer)
    (node : comprehension expr) :
  comprehension_all expr (visit_ok x) node →
  rewritable_comprehension rewritable node = true →
  balanced (visitcomprehension (visit x) node).
Proof.
  intros Hall Hnode. unfold rewritable_comprehension in Hnode.
  unfold visitcomprehension. destruct Hall as [t Ht i Hi c Hc].
  cbn [target iter ifs] in *.
  apply andb_prop in Hnode as [[??]%andb_prop ?].
  apply balanced_bind; [auto|intros ?].
  apply balanced_bind; [auto|intros ?].
  apply balanced_bind; [by apply balanced_mapM, balanced_visit_list|intros ?].
  apply balanced_ret.
Qed.

Lemma balanced_visitcomprehensions (x : transformer)
    (generators : list (comprehension expr)) :
  list_all (comprehension expr) (comprehension_all expr (visit_ok x)) generators →
  forallb (rewritable_comprehension rewritable) generators = true →
  balanced (mapM (visitcomprehension (visit x)) generators).
Proof.
  intros Hall Hr. apply balanced_mapM. revert Hall Hr.
  apply list_all_Forall_nested. intros g ??.
  by apply balanced_visitcomprehension.
Qed.

Lemma pushes_visit_generators (x : transformer)
    (generators : list (comprehension expr)) :
  list_all (comprehension expr) (comprehension_all expr (visit_ok x)) generators →
  forallb (rewritable_comprehension rewritable) generators = true →
  Forall (λ g, pushes 1 (visit_generator (visit x) g)) generators.
Proof.
  apply list_all_Forall_nested. intros g Hall Hg.
  unfold rewritable_comprehension in Hg. destruct Hall as [t Ht i Hi c Hc].
  cbn [target iter ifs] in *.
  apply andb_prop in Hg as [[??]%andb_prop ?].
  apply pushes_visit_generator; cbn [target iter ifs]; auto.
  by apply balanced_visit_list.
Qed.

Lemma balanced_visitLambda (x : transformer) (args : arguments expr)
    (body : expr) :
  arguments_all expr (visit_ok x) args → visit_ok x body →
  rewritable_arguments rewritable args = true → rewritable body = true →
  balanced (visitLambda (visit x) args body).
Proof.
  intros Hargs Hbody Hrargs Hrbody. unfold visitLambda.
  assert (extractable args = true) as Hext.
  { unfold rewritable_arguments in Hrargs.
    by apply andb_prop in Hrargs as [[??]%andb_prop ?]. }
  rewrite (_extract_names_spec _ Hext). cbn [lift].
  apply restores_balanced.
  intros locals. unfold bind at 1, ret at 1.
  apply (restores_scoped (positional_names args)).
  apply balanced_bind; [by apply balanced_visitarguments|intros ?].
  apply balanced_bind; [auto|intros ?]. apply balanced_ret.
Qed.

Lemma balanced_visitkeywords (x : transformer)
    (keywords : list (string * expr)) :
  list_all (string * expr)
    (prod_all string (λ _, unit) expr (visit_ok x)) keywords →
  forallb (λ kw, rewritable (snd kw)) keywords = true →
  balanced (mapM (visitkeyword (visit x)) keywords).
Proof.
  intros Hall Hkw. apply balanced_mapM. revert Hall Hkw.
  apply list_all_Forall_nested. intros kw [name _ value Hvalue] Hr.
  unfold visitkeyword. cbn [fst snd] in *.
  apply balanced_bind; [auto|intros ?]. apply balanced_ret.
Qed.

Lemma balanced_visitGeneratorExp (x : transformer)
    (class_ : expr → list (comprehension expr) → expr) (elt : expr)
    (generators : list (comprehension expr)) :
  visit_ok x elt →
  list_all (comprehension expr) (comprehension_all expr (visit_ok x)) generators →
  negb (bool_decide (generators = [])) = true →
  rewritable elt = true →
  forallb (rewritable_comprehension rewritable) generators = true →
  balanced (visitGeneratorExp (visit x) class_ elt generators).
Proof.
  intros Helt Hall Hne Hrelt Hrgens.
  apply restores_balanced, restores_visitGeneratorExp; [|auto|].
  - apply negb_true_iff, bool_decide_eq_false in Hne. done.
  - by apply pushes_visit_generators.
Qed.

Ltac balanced_step :=
  first
    [ apply balanced_ret
    | apply balanced_mapM, balanced_visit_list; assumption
    | apply balanced_visit_option; assumption
    | apply balanced_visitslice; assumption
    | apply balanced_visitkeywords; assumption
    | apply balanced_visitarguments; assumption
    | apply balanced_visitName
    | match goal with
      | H : visit_ok ?x ?e |- balanced (visit ?x ?e) => apply H; assumption
      end
    | apply balanced_bind; [|intros ?] ].

Lemma balanced_visitStr (s : basestring) :
  rewritable (Str s) = true → balanced (visitStr s).
Proof.
  intros Hs. unfold visitStr. destruct s as [b|u]; [|apply balanced_ret].
  cbn [rewritable] in Hs. destruct (is_ascii b); [apply balanced_ret|].
  apply bool_decide_eq_true in Hs as [u ->]. apply balanced_ret.
Qed.

(** On a rewritable tree [visit] returns, and all it does to the list of
    scopes is add names to the innermost one. *)
Theorem balanced_visit (x : transformer) (node : expr) :
  rewritable node = true → balanced (visit x node).
Proof.
  change (visit_ok x node).
  induction node using expr_ind; intros Hnode;
    cbn [visit rewritable] in *;
    repeat match goal with
           | H : _ && _ = true |- _ => apply andb_prop in H as [??]
           end;
    try (repeat balanced_step; fail).
  - (* Lambda *)
    destruct x; [repeat balanced_step|..]; by apply balanced_visitLambda.
  - (* ListComp *)
    destruct x; [|by apply balanced_visitGeneratorExp..].
    repeat balanced_step. by apply balanced_visitcomprehensions.
  - (* GeneratorExp *)
    destruct x; [|by apply balanced_visitGeneratorExp..].
    repeat balanced_step. by apply balanced_visitcomprehensions.
  - (* Str *)
    destruct x; [apply balanced_ret|..]; by apply balanced_visitStr.
  - (* Attribute *)
    destruct x; unfold visitAttribute; cbn [instance_eq_class negb andb];
      repeat balanced_step.
  - (* Subscript *)
    destruct x; [repeat balanced_step..|].
    match goal with
    | |- balanced (visitSubscript _ _ ?s _) => destruct s
    end; unfold visitSubscript; cbn [instance_eq_class negb andb];
      try (repeat balanced_step; fail).
    match goal with H : slice_all _ _ _ |- _ => inversion H; subst end.
    cbn [rewritable_slice] in *. repeat balanced_step.
  - (* Name *)
    destruct x; repeat balanced_step.
Qed.

(** *** Order of the clauses *)

Lemma mapM_app {A B} (f : A → M B) (l1 l2 : list A) (locals : list (gset string)) :
  mapM f (l1 ++ l2) locals
  = (ys1 <- mapM f l1 ;; ys2 <- mapM f l2 ;; ret (ys1 ++ ys2)) locals.
Proof.
  revert locals. induction l1 as [|x l1 IH]; intros locals; cbn [mapM app].
  - unfold bind, ret. destruct (mapM f l2 locals); reflexivity.
  - unfold bind, ret. destruct (f x locals) as [y locals'|]; [|reflexivity].
    rewrite IH. unfold bind, ret.
    destruct (mapM f l1 locals') as [ys1 locals''|]; [|reflexivity].
    destruct (mapM f l2 locals''); reflexivity.
Qed.

(** The clauses after a given one are handled before it, those before it
    after it. *)
Lemma for_reversed_app {A B} (f : A → M B) (l1 l2 : list A)
    (locals : list (gset string)) :
  for_reversed f (l1 ++ l2) locals
  = (ys2 <- for_reversed f l2 ;; ys1 <- for_reversed f l1 ;; ret (ys1 ++ ys2))
      locals.
Proof.
  revert locals. induction l1 as [|x l1 IH]; intros locals;
    cbn [for_reversed app].
  - unfold bind, ret. destruct (for_reversed f l2 locals); reflexivity.
  - unfold bind, ret. rewrite IH. unfold bind, ret.
    destruct (for_reversed f l2 locals) as [ys2 locals'|]; [|reflexivity].
    destruct (for_reversed f l1 locals') as [ys1 locals''|]; [|reflexivity].
    destruct (f x locals''); reflexivity.
Qed.

(** [for_reversed] is the loop of the source: [f] is applied along the
    reversed list, and the list of results is reversed. *)
Lemma for_reversed_spec {A B} (f : A → M B) (l : list A)
    (locals : list (gset string)) :
  for_reversed f l locals
  = (ys <- mapM f (reverse l) ;; ret (reverse ys)) locals.
Proof.
  revert locals. induction l as [|x l IH]; intros locals; [done|].
  rewrite reverse_cons. cbn [for_reversed]. unfold bind, ret.
  rewrite IH, mapM_app. unfold bind, ret. cbn [mapM]. unfold bind, ret.
  destruct (mapM f (reverse l) locals) as [ys locals'|]; [|reflexivity].
  destruct (f x locals') as [y locals''|]; [|reflexivity].
  by rewrite reverse_app.
Qed.

Lemma rewritable_comprehension_inv (g : comprehension expr) :
  rewritable_comprehension rewritable g = true →
  rewritable (target g) = true ∧ rewritable (iter g) = true
  ∧ forallb rewritable (ifs g) = true.
Proof.
  unfold rewritable_comprehension.
  by intros [[??]%andb_prop ?]%andb_prop.
Qed.

Lemma balanced_visit_all (x : transformer) (l : list expr) :
  forallb rewritable l = true → Forall (λ e, balanced (visit x e)) l.
Proof.
  rewrite forallb_forall, Forall_forall. intros Hl e He.
  apply balanced_visit, Hl. by apply list_elem_of_In.
Qed.

Lemma pushes_generators (x : transformer)
    (generators : list (comprehension expr)) :
  forallb (rewritable_comprehension rewritable) generators = true →
  pushes (length generators)
    (for_reversed (visit_generator (visit x)) generators).
Proof.
  intros Hgens. apply pushes_for_reversed.
  rewrite forallb_forall in Hgens. apply Forall_forall. intros g Hg.
  apply list_elem_of_In, Hgens, rewritable_comprehension_inv in Hg as (?&?&?).
  apply pushes_visit_generator; try by apply balanced_visit.
  by apply balanced_visit_all.
Qed.

(** The scopes while a comprehension is rewritten.  On a comprehension or
    generator expression with at least one clause (in a tree the rewriter
    completes on), [visitGeneratorExp] handles the clauses in reverse
    order of declaration and appends one scope per clause.  So while a
    clause is rewritten (its target first, then its iterable, then its
    conditions) the list holds, above the scopes found on entry, one scope
    for each clause declared after it and then the new scope of the clause
    itself, and none for a clause declared before it.  The element is
    rewritten above the scopes of all the clauses, and in the end the list
    of scopes is the one found on entry. *)
Theorem visitGeneratorExp_scopes (x : transformer) (elt : expr)
    (before : list (comprehension expr)) (g : comprehension expr)
    (after : list (comprehension expr)) (locals : list (gset string)) :
  x ≠ ASTTransformer →
  rewritable (GeneratorExp elt (before ++ g :: after)) = true →
  ∃ after' pushed_after target' s_target iter' s_iter ifs' s_g
    before' pushed_before elt' pushed,
    (* the clauses declared after [g], one scope each *)
    for_reversed (visit_generator (visit x)) after locals
    = Returned after' (locals ++ pushed_after)
    ∧ length pushed_after = length after
    (* then [g], above them and a new scope of its own *)
    ∧ visit x (target g) (locals ++ pushed_after ++ [∅])
      = Returned target' (locals ++ pushed_after ++ [s_target])
    ∧ visit x (iter g) (locals ++ pushed_after ++ [s_target])
      = Returned iter' (locals ++ pushed_after ++ [s_iter])
    ∧ mapM (visit x) (ifs g) (locals ++ pushed_after ++ [s_iter])
      = Returned ifs' (locals ++ pushed_after ++ [s_g])
    (* then the clauses declared before [g] *)
    ∧ for_reversed (visit_generator (visit x)) before
        (locals ++ pushed_after ++ [s_g])
      = Returned before' (locals ++ pushed_after ++ [s_g] ++ pushed_before)
    ∧ length pushed_before = length before
    (* then the element *)
    ∧ visit x elt (locals ++ pushed_after ++ [s_g] ++ pushed_before)
      = Returned elt' (locals ++ pushed)
    ∧ length pushed = length (before ++ g :: after)
    (* and the scopes of the clauses are deleted *)
    ∧ visit x (GeneratorExp elt (before ++ g :: after)) locals
      = Returned
          (GeneratorExp elt'
             (before' ++ Comprehension target' iter' ifs' :: after'))
          locals
    ∧ visit x (ListComp elt (before ++ g :: after)) locals
      = Returned
          (ListComp elt'
             (before' ++ Comprehension target' iter' ifs' :: after'))
          locals.
Proof.
  cbn [rewritable].
  intros Hx [[_ Helt]%andb_prop Hgens]%andb_prop.
  rewrite forallb_app in Hgens. cbn [forallb] in Hgens.
  apply andb_prop in Hgens as [Hbefore [Hg Hafter]%andb_prop].
  apply rewritable_comprehension_inv in Hg as (Htarget & Hiter & Hifs).
  destruct (pushes_generators x after Hafter locals)
    as (after' & pushed_after & Hafter' & Hlen_after).
  destruct (balanced_visit x _ Htarget ((locals ++ pushed_after) ++ [∅]))
    as (target' & ? & Htarget' & (s_target & -> & _)%frame_inv_last).
  destruct (balanced_visit x _ Hiter ((locals ++ pushed_after) ++ [s_target]))
    as (iter' & ? & Hiter' & (s_iter & -> & _)%frame_inv_last).
  destruct (balanced_mapM (visit x) (ifs g) (balanced_visit_all x _ Hifs)
              ((locals ++ pushed_after) ++ [s_iter]))
    as (ifs' & ? & Hifs' & (s_g & -> & _)%frame_inv_last).
  destruct (pushes_generators x before Hbefore
              ((locals ++ pushed_after) ++ [s_g]))
    as (before' & pushed_before & Hbefore' & Hlen_before).
  destruct (balanced_visit x _ Helt
              (locals ++ (pushed_after ++ [s_g] ++ pushed_before)))
    as (elt' & ? & Helt' & (pushed & -> & Hlen)%frame_inv_pushed);
    [|by destruct pushed_after].
  rewrite <- !app_assoc in *.
  exists after', pushed_after, target', s_target, iter', s_iter, ifs', s_g,
    before', pushed_before, elt', pushed.
  assert (length pushed = length (before ++ g :: after)) as Hlen'.
  { rewrite Hlen, !length_app. cbn [length]. lia. }
  repeat (split; [done|]).
  assert (visit_generator (visit x) g (locals ++ pushed_after)
          = Returned (Comprehension target' iter' ifs')
              (locals ++ pushed_after ++ [s_g])) as Hg'.
  { unfold visit_generator, bind, locals_append.
    by rewrite <- !app_assoc, Htarget', Hiter', Hifs'. }
  enough (∀ class_,
    visitGeneratorExp (visit x) class_ elt (before ++ g :: after) locals
    = Returned
        (class_ elt' (before' ++ Comprehension target' iter' ifs' :: after'))
        locals) as Hvisit.
  { by destruct x; cbn [visit]; rewrite ?Hvisit. }
  intros class_. unfold visitGeneratorExp, bind. rewrite for_reversed_app.
  cbn [for_reversed]. unfold bind. rewrite Hafter', Hg'. unfold ret at 1.
  rewrite Hbefore'. unfold ret at 1. rewrite Helt'.
  unfold locals_del_last, ret. rewrite decide_False.
  2: { rewrite length_app. cbn [length]. lia. }
  rewrite length_app, Hlen'.
  replace (length locals + length (before ++ g :: after)
           - length (before ++ g :: after)) with (length locals) by lia.
  by rewrite take_app_length.
Qed.

(** *** Statements *)

Lemma balanced_visitarguments_all (x : transformer) (node : arguments expr) :
  rewritable_arguments rewritable node = true →
  balanced (visitarguments (visit x) node).
Proof.
  unfold rewritable_arguments, visitarguments.
  intros [[_ ?]%andb_prop ?]%andb_prop.
  repeat (apply balanced_bind; [by apply balanced_mapM, balanced_visit_all|intros ?]).
  apply balanced_ret.
Qed.

Lemma balanced_optM_visit (x : transformer) (o : option expr) :
  from_option rewritable true o = true → balanced (optM (visit x) o).
Proof.
  intros Ho. apply balanced_optM. intros e ->. by apply balanced_visit.
Qed.

Lemma balanced_visitFunctionDef (cloner : M stmt) (name : string)
    (args : arguments expr) :
  extractable args = true → balanced cloner →
  balanced (visitFunctionDef cloner name args).
Proof.
  intros Hext Hcloner. unfold visitFunctionDef.
  apply balanced_bind; [apply balanced_add_if_nested|intros _].
  rewrite (_extract_names_spec _ Hext). cbn [lift].
  apply restores_balanced. intros locals. unfold bind at 1.
  by apply (restores_scoped (positional_names args)).
Qed.

Lemma balanced_visitClassDef (cloner : M stmt) (name : string) :
  balanced cloner → balanced (visitClassDef cloner name).
Proof.
  intros Hcloner. unfold visitClassDef.
  apply balanced_bind; [apply balanced_add_if_nested|intros _].
  by apply restores_balanced, restores_scoped.
Qed.

Lemma balanced_visitFor (cloner : M stmt) :
  balanced cloner → balanced (visitFor cloner).
Proof. intros Hcloner. by apply restores_balanced, restores_scoped. Qed.

Lemma balanced_visit_stmts (x : transformer) (l : list stmt) :
  list_all stmt (visit_stmt_ok x) l → forallb rewritable_stmt l = true →
  balanced (mapM (visit_stmt x) l).
Proof. intros Hall Hl. apply balanced_mapM. revert Hall Hl. apply list_all_Forall. auto. Qed.

Lemma balanced_visitexcepthandlers (x : transformer)
    (handlers : list (excepthandler expr stmt)) :
  list_all (excepthandler expr stmt)
    (excepthandler_all expr (λ _, unit) stmt (visit_stmt_ok x)) handlers →
  forallb (rewritable_excepthandler rewritable_stmt) handlers = true →
  balanced (mapM (visitexcepthandler (visit x) (visit_stmt x)) handlers).
Proof.
  intros Hall Hr. apply balanced_mapM. revert Hall Hr.
  apply list_all_Forall_nested. intros h Hh Hr.
  destruct Hh as [type _ name _ body Hbody].
  cbn [rewritable_excepthandler visitexcepthandler] in *.
  apply andb_prop in Hr as [[??]%andb_prop ?].
  apply balanced_bind; [by apply balanced_optM_visit|intros ?].
  apply balanced_bind; [by apply balanced_optM_visit|intros ?].
  apply balanced_bind; [by apply balanced_visit_stmts|intros ?].
  apply balanced_ret.
Qed.

Lemma balanced_visitImportFrom (module : string) (names : list alias)
    (level : option Z) :
  balanced (visitImportFrom module names level).
Proof.
  unfold visitImportFrom.
  destruct (negb has_star_import_bug || negb (is_star_import names));
    apply balanced_ret.
Qed.

Ltac balanced_stmt_step :=
  first
    [ apply balanced_ret
    | apply balanced_mapM, balanced_visit_all; assumption
    | apply balanced_optM_visit; assumption
    | apply balanced_visitarguments_all; assumption
    | apply balanced_visit_stmts; assumption
    | apply balanced_visitexcepthandlers; assumption
    | apply balanced_visit; assumption
    | apply balanced_bind; [|intros ?] ].

(** The same for statements. *)
Theorem balanced_visit_stmt (x : transformer) (node : stmt) :
  rewritable_stmt node = true → balanced (visit_stmt x node).
Proof.
  change (visit_stmt_ok x node).
  induction node using stmt_ind; intros Hnode;
    cbn [visit_stmt rewritable_stmt] in *;
    repeat match goal with
           | H : _ && _ = true |- _ => apply andb_prop in H as [??]
           end;
    try (repeat balanced_stmt_step; fail).
  - (* FunctionDef *)
    destruct x; [repeat balanced_stmt_step|..];
      (apply balanced_visitFunctionDef;
       [unfold rewritable_arguments in *;
        repeat match goal with
               | H : _ && _ = true |- _ => apply andb_prop in H as [??]
               end; done
       |repeat balanced_stmt_step]).
  - (* ClassDef *)
    destruct x; [repeat balanced_stmt_step|..];
      (apply balanced_visitClassDef; repeat balanced_stmt_step).
  - (* For *)
    destruct x; [repeat balanced_stmt_step|..];
      (apply balanced_visitFor; repeat balanced_stmt_step).
  - (* ImportFrom *)
    destruct x; [apply balanced_ret|..]; apply balanced_visitImportFrom.
  - (* StarImportPatch *)
    done.
Qed.

Lemma balanced_visit_AST (x : transformer) (node : AST) :
  rewritable_AST node = true → balanced (visit_AST x node).
Proof.
  intros Hnode. destruct node as [node|node]; cbn [visit_AST rewritable_AST] in *.
  - apply balanced_bind; [by apply balanced_visit|intros; apply balanced_ret].
  - apply balanced_bind; [by apply balanced_visit_stmt|intros; apply balanced_ret].
Qed.

(** A positional parameter is in the scope of its lambda: a body that
    reads it is left as it is. *)
Lemma positional_parameter_kept (x : transformer) (node : arguments expr)
    (p : string) (locals : list (gset string)) :
  x ≠ ASTTransformer →
  rewritable_arguments rewritable node = true →
  p ∈ positional_names node →
  ∃ node', visit x (Lambda node (Name p Load)) locals
           = Returned (Lambda node' (Name p Load)) locals.
Proof.
  intros Hx Hnode Hp.
  assert (visit x (Lambda node (Name p Load))
          = visitLambda (visit x) node (Name p Load)) as ->
    by (by destruct x).
  assert (visit x (Name p Load) = visitName p Load) as Hname
    by (by destruct x).
  assert (extractable node = true) as Hext.
  { unfold rewritable_arguments in Hnode.
    by apply andb_prop in Hnode as [[??]%andb_prop ?]. }
  unfold visitLambda. rewrite (_extract_names_spec _ Hext).
  unfold bind, locals_append, try_finally. cbn [lift].
  destruct (balanced_visitarguments_all x node Hnode
              (locals ++ [positional_names node]))
    as (node' & ? & -> & (s' & -> & Hsub)%frame_inv_last).
  rewrite Hname, visitName_load by auto.
  rewrite bool_decide_eq_true_2.
  2: { apply Exists_exists. exists s'. split; [|set_solver].
       apply elem_of_app. right. by apply list_elem_of_singleton. }
  unfold ret, locals_pop. exists node'.
  destruct (locals ++ [s']) as [|s0 l] eqn:Heq; [by destruct locals|].
  by rewrite <- Heq, removelast_last.
Qed.

(** The rewriter completes on a rewritable module or expression, and the
    initial list of scopes, which has the constants as its only entry, is
    the final one. *)
Theorem visit_mod_returns (x : transformer) (node : mod_) :
  rewritable_mod node = true →
  ∃ node', visit_mod x node initial_locals = Returned node' initial_locals.
Proof.
  intros Hnode.
  assert (balanced (visit_mod x node)) as Hbalanced.
  { destruct node as [body|body]; cbn [visit_mod rewritable_mod] in *.
    - apply balanced_bind; [|intros; apply balanced_ret].
      apply balanced_mapM. rewrite forallb_forall in Hnode.
      apply Forall_forall. intros s Hs.
      by apply balanced_visit_AST, Hnode, list_elem_of_In.
    - apply balanced_bind; [by apply balanced_visit_AST|intros; apply balanced_ret]. }
  destruct (Hbalanced initial_locals) as (node' & locals' & Hvisit & Hframe).
  exists node'. rewrite Hvisit. f_equal. by apply frame_single.
Qed.

(** ** Parameters of functions and lambdas *)

(** C8 fails on the code.  For [lambda a, *rest, **kw: (a, rest, kw)] and
    for [def f(a, *rest, **kw): return rest], [_extract_names] returns the
    scope [{a}]: it looks for attributes [varargs] and [kwargs], which an
    [arguments] node does not have (its fields are [vararg] and [kwarg]).
    The reads of [rest] and [kw] in the body are redirected to the
    context. *)
Theorem _extract_names_variadic :
  let node := Arguments [Name "a" Param] (Some "rest") (Some "kw") [] in
  _extract_names node = Ok {["a"]}
  ∧ visit TemplateASTTransformer
      (Lambda node
         (Tuple [Name "a" Load; Name "rest" Load; Name "kw" Load] Load))
      initial_locals
    = Returned
        (Lambda node
           (Tuple [Name "a" Load; lookup_name_call "rest";
                   lookup_name_call "kw"] Load))
        initial_locals
  ∧ visit_stmt TemplateASTTransformer
      (FunctionDef "f" node [Return (Some (Name "rest" Load))] [])
      initial_locals
    = Returned
        (FunctionDef "f" node [Return (Some (lookup_name_call "rest"))] [])
        initial_locals.
Proof. cbv zeta. split; [|split]; reflexivity. Qed.

(** C2 fails on the code, by the same defect.  In [lambda *rest: rest] the
    parameter [rest] is bound by the lambda, yet its read in the body is
    replaced by [_lookup_name(__data__, 'rest')], and that call returns the
    entry [rest] of the context when there is one. *)
Theorem variadic_parameter_redirected :
  let node := Arguments [] (Some "rest") None [] in
  visit ExpressionASTTransformer (Lambda node (Name "rest" Load)) initial_locals
  = Returned (Lambda node (lookup_name_call "rest")) initial_locals
  ∧ ∀ cls,
      py_eval Toy.builtin_dict Toy.getattr Toy.hasattr_class Toy.getitem
        Toy.repr {["rest" := VInt 1]} (globals cls) {["__data__" := VData]}
        (lookup_name_call "rest")
      = Some (Ok (VInt 1)).
Proof.
  cbv zeta. split; [reflexivity|]. intros cls. by destruct cls.
Qed.

End ScopeProperties.

(** * Examples *)

#[local] Existing Instance Toy.host.

Lemma not_constant (id : string) :
  bool_decide (id ∈ CONSTANTS) = false → id ∉ CONSTANTS.
Proof. intros H Hin. by rewrite bool_decide_eq_true_2 in H. Qed.

#[local] Abbreviation toy_evaluate :=
  (Expression.evaluate Toy.builtin_dict Toy.getattr Toy.hasattr_class
     Toy.getitem Toy.repr).
#[local] Abbreviation toy_lookup_name := (lookup_name Toy.builtin_dict Toy.repr).
#[local] Abbreviation toy_lookup_attr :=
  (lookup_attr Toy.getattr Toy.hasattr_class Toy.getitem Toy.repr).
#[local] Abbreviation toy_lookup_item :=
  (lookup_item Toy.getattr Toy.getitem Toy.repr).

(** C6 as stated fails: reading the attribute [_name] of the [Undefined]
    that stands for [nothing] returns the name; it does not raise. *)
Lemma Undefined_slot_read_counterexample :
  let u := Undefined.__init__ "nothing" None in
  let getattribute :=
    Undefined.getattribute Toy.repr Toy.bound Toy.object_attribute in
  getattribute u "_name" = Ok (Some (VStr "nothing"))
  ∧ getattribute u "_name"
    ≠ Raise (UndefinedError (dquote ++ "nothing" ++ dquote ++ " not defined")%string).
Proof. cbv zeta. split; [reflexivity|discriminate]. Qed.

(** [Undefined_sentinel] on the attribute [bar] of the [Undefined] that
    stands for [foo], and of the one that stands for the member [foo] of
    the empty dictionary. *)
Lemma Undefined_sentinel_witness :
  let getattribute :=
    Undefined.getattribute Toy.repr Toy.bound Toy.object_attribute in
  "bar" ≠ "_name" ∧ "bar" ≠ "_owner"
  ∧ ("bar" ∉ Undefined.class_body)
  ∧ (∀ u, Toy.object_attribute u "bar" = None)
  ∧ getattribute (Undefined.__init__ "foo" None) "bar"
    = Raise (UndefinedError (dquote ++ "foo" ++ dquote ++ " not defined")%string)
  ∧ getattribute (Undefined.__init__ "foo" (Some (VHost 0))) "bar"
    = Raise (UndefinedError
               ("{} has no member named " ++ dquote ++ "foo" ++ dquote)%string).
Proof.
  cbv zeta.
  assert ("bar" ≠ "_name") as H1 by discriminate.
  assert ("bar" ≠ "_owner") as H2 by discriminate.
  assert ("bar" ∉ Undefined.class_body) as H3.
  { intros H. by apply (bool_decide_eq_true_2 _) in H. }
  assert (∀ u, Toy.object_attribute u "bar" = None) as H4 by reflexivity.
  split; [exact H1|]. split; [exact H2|]. split; [exact H3|].
  split; [exact H4|].
  pose proof (Undefined_sentinel Toy.repr Toy.bound Toy.object_attribute
                "foo" (VHost 0) [] "bar" (VInt 0) H1 H2 H3 H4)
    as (_ & (_ & Hfree & _) & (_ & Hmember & _)).
  split; [exact Hfree|exact Hmember].
Defined.

(** C1 as stated fails: the identifier [Undefined] is in no local scope and
    absent from the (empty) context, yet under both policies the expression
    [Undefined] evaluates to the class of that name, which [BUILTINS]
    holds: no [Undefined] value, no [UndefinedError]. *)
Lemma evaluate_builtin_name_counterexample :
  ("Undefined" ∉ CONSTANTS)
  ∧ (∅ : gmap string pyval) !! "Undefined" = None
  ∧ ∃ lenient strict,
      Code.__init__ Toy._parse Expression
        (SourceNode (AST_expr (Name "Undefined" Load))) None (-1)
        (Some (PyString "lenient")) None = Ok lenient
      ∧ Code.__init__ Toy._parse Expression
          (SourceNode (AST_expr (Name "Undefined" Load))) None (-1)
          (Some (PyString "strict")) None = Ok strict
      ∧ toy_evaluate lenient ∅ = Some (Ok (VClass "Undefined"))
      ∧ toy_evaluate strict ∅ = Some (Ok (VClass "Undefined")).
Proof.
  split; [by apply not_constant|]. split; [reflexivity|].
  eexists _, _. split; [reflexivity|]. split; [reflexivity|].
  split; reflexivity.
Qed.

(** [evaluate_unbound_name] on the text [nothing], with [items] in the
    context. *)
Lemma evaluate_unbound_name_witness :
  let data : gmap string pyval := {["items" := VHost 3]} in
  identifier_source Toy._parse (SourceText "nothing") "nothing"
  ∧ ("nothing" ∉ CONSTANTS)
  ∧ data !! "nothing" = None
  ∧ BUILTINS Toy.builtin_dict !! "nothing" = None
  ∧ ∃ lenient strict,
      Code.__init__ Toy._parse Expression (SourceText "nothing") None (-1)
        (Some (PyString "lenient")) None = Ok lenient
      ∧ Code.__init__ Toy._parse Expression (SourceText "nothing") None (-1)
          (Some (PyString "strict")) None = Ok strict
      ∧ (∃ u, toy_evaluate lenient data = Some (Ok (Undefined.to_pyval u))
              ∧ Undefined._name u = "nothing"
              ∧ Undefined._owner u = None
              ∧ Undefined.__str__ u = "undefined"
              ∧ Undefined.__nonzero__ u = false)
      ∧ toy_evaluate strict data
        = Some (Raise (UndefinedError
                         (dquote ++ "nothing" ++ dquote ++ " not defined")%string)).
Proof.
  cbv zeta.
  assert (identifier_source Toy._parse (SourceText "nothing") "nothing") as H1.
  { right. exists "nothing". split; reflexivity. }
  assert ("nothing" ∉ CONSTANTS) as H2.
  { apply not_constant. reflexivity. }
  assert (({["items" := VHost 3]} : gmap string pyval) !! "nothing" = None) as H3.
  { reflexivity. }
  assert (BUILTINS Toy.builtin_dict !! "nothing" = None) as H4.
  { reflexivity. }
  split; [exact H1|]. split; [exact H2|]. split; [exact H3|].
  split; [exact H4|].
  exact (evaluate_unbound_name Toy.builtin_dict Toy.getattr Toy.hasattr_class
           Toy.getitem Toy.repr Toy._parse (SourceText "nothing") "nothing"
           None (-1) {["items" := VHost 3]} H1 H2 H3 H4).
Defined.

(** [lookup_attr_item_failure] on [VHost 1], an instance of a classic
    class without [__getitem__] and without the attribute [nil]:
    [something.nil] raises the [AttributeError] of the item access under
    the lenient policy, where [something['nil']] is an [Undefined]. *)
Lemma lookup_attr_item_failure_witness :
  Toy.getattr (VHost 1) "nil" = Raise AttributeError
  ∧ Toy.hasattr_class (VHost 1) "nil" = false
  ∧ Toy.getitem (VHost 1) (VStr "nil") = Raise AttributeError
  ∧ toy_lookup_attr LenientLookup (VHost 1) "nil" = Raise AttributeError
  ∧ toy_lookup_item LenientLookup (VHost 1) [VStr "nil"]
    = undefined Toy.repr LenientLookup "nil" (Some (VHost 1)).
Proof.
  assert (Toy.getattr (VHost 1) "nil" = Raise AttributeError) as H1
    by reflexivity.
  assert (Toy.hasattr_class (VHost 1) "nil" = false) as H2 by reflexivity.
  assert (Toy.getitem (VHost 1) (VStr "nil") = Raise AttributeError) as H3
    by reflexivity.
  split; [exact H1|]. split; [exact H2|]. split; [exact H3|].
  exact (lookup_attr_item_failure Toy.getattr Toy.hasattr_class Toy.getitem
           Toy.repr LenientLookup (VHost 1) "nil" AttributeError H1 H2 H3
           (or_introl eq_refl)).
Defined.

(** [lookup_attr_spec] on the empty dictionary: [something.nil] is the
    undefined outcome with owner [{}], under both policies. *)
Lemma lookup_attr_spec_witness :
  Toy.getattr (VHost 0) "nil" = Raise AttributeError
  ∧ Toy.hasattr_class (VHost 0) "nil" = false
  ∧ Toy.getitem (VHost 0) (VStr "nil") = Raise KeyError
  ∧ toy_lookup_attr LenientLookup (VHost 0) "nil"
    = undefined Toy.repr LenientLookup "nil" (Some (VHost 0))
  ∧ toy_lookup_attr StrictLookup (VHost 0) "nil"
    = undefined Toy.repr StrictLookup "nil" (Some (VHost 0)).
Proof.
  assert (Toy.getattr (VHost 0) "nil" = Raise AttributeError) as H1
    by reflexivity.
  assert (Toy.hasattr_class (VHost 0) "nil" = false) as H2 by reflexivity.
  assert (Toy.getitem (VHost 0) (VStr "nil") = Raise KeyError) as H3
    by reflexivity.
  split; [exact H1|]. split; [exact H2|]. split; [exact H3|]. split.
  - exact (proj1 (proj2 (proj1 (proj2
      (lookup_attr_spec Toy.getattr Toy.hasattr_class Toy.getitem Toy.repr
         LenientLookup (VHost 0) "nil")) H1 H2)) KeyError H3 (or_introl eq_refl)).
  - exact (proj1 (proj2 (proj1 (proj2
      (lookup_attr_spec Toy.getattr Toy.hasattr_class Toy.getitem Toy.repr
         StrictLookup (VHost 0) "nil")) H1 H2)) KeyError H3 (or_introl eq_refl)).
Defined.


(** [lookup_name_spec]: the built-in [len] is found from an empty context,
    and an entry [len] of the context shadows it. *)
Lemma lookup_name_spec_witness :
  (∅ : gmap string pyval) !! "len" = None
  ∧ BUILTINS Toy.builtin_dict !! "len" = Some (VHost 10)
  ∧ toy_lookup_name StrictLookup ∅ "len" = Ok (VHost 10)
  ∧ toy_lookup_name StrictLookup (<["len" := VInt 7]> ∅) "len" = Ok (VInt 7).
Proof.
  assert ((∅ : gmap string pyval) !! "len" = None) as H1 by reflexivity.
  assert (BUILTINS Toy.builtin_dict !! "len" = Some (VHost 10)) as H2
    by reflexivity.
  split; [exact H1|]. split; [exact H2|]. split.
  - exact (proj1 (proj2
      (lookup_name_spec Toy.builtin_dict Toy.repr StrictLookup ∅ "len"))
      (VHost 10) H1 H2).
  - exact (proj2 (proj2 (proj2 (proj2 (proj2 (proj2 (proj2
      (lookup_name_spec Toy.builtin_dict Toy.repr StrictLookup ∅ "len")))))))
      (VInt 7) (VHost 10) H2).
Defined.

(** [visitGeneratorExp_scopes] on the first clause of
    [[y for x in xs for y in x]]: it is rewritten above the scope of the
    second clause. *)
Lemma visitGeneratorExp_scopes_witness :
  let x := TemplateASTTransformer in
  let elt := Name "y" Load in
  let g := Comprehension (Name "x" Store) (Name "xs" Load) [] in
  let after := [Comprehension (Name "y" Store) (Name "x" Load) []] in
  let locals := initial_locals in
  x ≠ ASTTransformer
  ∧ rewritable (GeneratorExp elt ([] ++ g :: after)) = true
  ∧ ∃ after' pushed_after target' s_target iter' s_iter ifs' s_g
      before' pushed_before elt' pushed,
      for_reversed (visit_generator (visit x)) after locals
      = Returned after' (locals ++ pushed_after)
      ∧ length pushed_after = length after
      ∧ visit x (target g) (locals ++ pushed_after ++ [∅])
        = Returned target' (locals ++ pushed_after ++ [s_target])
      ∧ visit x (iter g) (locals ++ pushed_after ++ [s_target])
        = Returned iter' (locals ++ pushed_after ++ [s_iter])
      ∧ mapM (visit x) (ifs g) (locals ++ pushed_after ++ [s_iter])
        = Returned ifs' (locals ++ pushed_after ++ [s_g])
      ∧ for_reversed (visit_generator (visit x)) []
          (locals ++ pushed_after ++ [s_g])
        = Returned before' (locals ++ pushed_after ++ [s_g] ++ pushed_before)
      ∧ length pushed_before = length ([] : list (comprehension expr))
      ∧ visit x elt (locals ++ pushed_after ++ [s_g] ++ pushed_before)
        = Returned elt' (locals ++ pushed)
      ∧ length pushed = length ([] ++ g :: after)
      ∧ visit x (GeneratorExp elt ([] ++ g :: after)) locals
        = Returned
            (GeneratorExp elt'
               (before' ++ Comprehension target' iter' ifs' :: after'))
            locals
      ∧ visit x (ListComp elt ([] ++ g :: after)) locals
        = Returned
            (ListComp elt'
               (before' ++ Comprehension target' iter' ifs' :: after'))
            locals.
Proof.
  cbv zeta.
  assert (TemplateASTTransformer ≠ ASTTransformer) as H1 by discriminate.
  assert (rewritable
            (GeneratorExp (Name "y" Load)
               ([] ++ Comprehension (Name "x" Store) (Name "xs" Load) []
                   :: [Comprehension (Name "y" Store) (Name "x" Load) []]))
          = true) as H2 by reflexivity.
  split; [exact H1|]. split; [exact H2|].
  exact (visitGeneratorExp_scopes TemplateASTTransformer (Name "y" Load) []
           (Comprehension (Name "x" Store) (Name "xs" Load) [])
           [Comprehension (Name "y" Store) (Name "x" Load) []]
           initial_locals H1 H2).
Defined.

(** [Code_init_lookup_None] on a suite built from text. *)
Lemma Code_init_lookup_None_witness :
  ∃ c,
    Code.__init__ Toy._parse Suite (SourceText "nothing") (Some (PyStr "t.html")) 3
      None None = Ok c
    ∧ Code._globals c = StrictLookup
    ∧ ∃ c', Code.__init__ Toy._parse Suite (SourceText "nothing")
              (Some (PyStr "t.html")) 3 (Some PyNone) None = Ok c'
            ∧ Code._globals c' = LenientLookup
            ∧ Code.class_ c' = Code.class_ c
            ∧ Code.source c' = Code.source c
            ∧ Code.ast c' = Code.ast c
            ∧ Code.code c' = Code.code c.
Proof.
  eexists. split; [reflexivity|].
  exact (Code_init_lookup_None Toy._parse Suite (SourceText "nothing")
           (Some (PyStr "t.html")) 3 None _ eq_refl).
Defined.

Lemma toy_code_hash_eq (a b : CodeType) :
  Toy.code_eq a b = true → Toy.code_hash a = Toy.code_hash b.
Proof. unfold Toy.code_eq, Toy.code_hash. by intros ?%bool_decide_eq_true. Qed.

(** [Code_eq_hash] on an expression and a suite with equal code objects:
    they are not equal; two expressions with equal code objects are, and
    have the same hash. *)
Lemma Code_eq_hash_witness :
  let code_ := {| co_tree := mod_Expression (AST_expr (Num 1));
                  co_filename := "<string>"; co_name := "<Expression '1'>";
                  co_firstlineno := 1 |} in
  let e1 := {| Code.class_ := Expression; Code.source := "1"; Code.code := code_;
               Code.ast := mod_Expression (AST_expr (Num 1));
               Code._globals := StrictLookup |} in
  let e2 := {| Code.class_ := Expression; Code.source := " 1"; Code.code := code_;
               Code.ast := mod_Expression (AST_expr (Num 1));
               Code._globals := LenientLookup |} in
  let s := {| Code.class_ := Suite; Code.source := "1"; Code.code := code_;
              Code.ast := mod_Expression (AST_expr (Num 1));
              Code._globals := StrictLookup |} in
  (∀ a b, Toy.code_eq a b = true → Toy.code_hash a = Toy.code_hash b)
  ∧ Code.__eq__ Toy.code_eq e1 e2 = true
  ∧ Code.__hash__ Toy.code_hash e1 = Code.__hash__ Toy.code_hash e2
  ∧ Code.__eq__ Toy.code_eq e1 s = false
  ∧ Code.__eq__ Toy.code_eq s e1 = false.
Proof.
  intros code_ e1 e2 s. split; [exact toy_code_hash_eq|].
  split; [reflexivity|]. split.
  - exact (proj1 (proj2 (proj2 (proj2
      (Code_eq_hash Toy.code_eq Toy.code_hash toy_code_hash_eq e1 e2))))
      eq_refl).
  - exact (proj1 (proj2
      (Code_eq_hash Toy.code_eq Toy.code_hash toy_code_hash_eq e1 s))
      eq_refl eq_refl).
Defined.

(** * Further properties of the rewriter *)

Section MoreRewriterProperties.
Context {host : Host}.

Lemma frame_explicit (locals locals' : list (gset string)) :
  frame locals locals' →
  length locals' = length locals
  ∧ (∀ i, i + 1 < length locals → locals' !! i = locals !! i)
  ∧ (∀ s, last locals = Some s → ∃ s', last locals' = Some s' ∧ s ⊆ s')
  ∧ ((length locals ≤ 1)%nat → locals' = locals).
Proof.
  destruct 1 as [locals|outer s s' Hne Hsub].
  - repeat split; eauto.
  - split; [by rewrite !length_app|]. split; [|split].
    + intros i. rewrite length_app. cbn [length]. intros Hi.
      by rewrite !lookup_app_l by lia.
    + intros s0. rewrite !last_snoc. intros [= <-]. eauto.
    + rewrite length_app. cbn [length]. destruct outer; [done|].
      cbn [length]. lia.
Qed.

Lemma frame_Exists (id : string) (locals locals' : list (gset string)) :
  frame locals locals' →
  Exists (λ s, id ∈ s) locals → Exists (λ s, id ∈ s) locals'.
Proof.
  destruct 1 as [locals|outer s s' Hne Hsub]; [done|].
  rewrite !Exists_app, !Exists_cons, !Exists_nil. set_solver.
Qed.

Lemma balanced_visit_stmt_all (x : transformer) (l : list stmt) :
  forallb rewritable_stmt l = true → balanced (mapM (visit_stmt x) l).
Proof.
  intros Hl. apply balanced_mapM. rewrite forallb_forall in Hl.
  apply Forall_forall. intros s Hs.
  by apply balanced_visit_stmt, Hl, list_elem_of_In.
Qed.

Lemma balanced_visit_mod (x : transformer) (node : mod_) :
  rewritable_mod node = true → balanced (visit_mod x node).
Proof.
  intros Hnode. destruct node as [body|body]; cbn [visit_mod rewritable_mod] in *.
  - apply balanced_bind; [|intros; apply balanced_ret].
    apply balanced_mapM. rewrite forallb_forall in Hnode.
    apply Forall_forall. intros s Hs.
    by apply balanced_visit_AST, Hnode, list_elem_of_In.
  - apply balanced_bind; [by apply balanced_visit_AST|intros; apply balanced_ret].
Qed.

(** On a rewritable expression (no tuple parameter with elements, no
    comprehension without a clause, no [str] literal that fails to decode)
    [visit] returns, whatever the transformer and the list of scopes.  The
    list it returns has the same length; its entries below the innermost
    one are unchanged; the innermost one can only have gained names; and a
    list of at most one scope is returned as it was. *)
Theorem visit_keeps_scopes (x : transformer) (node : expr)
    (locals : list (gset string)) :
  rewritable node = true →
  ∃ node' locals',
    visit x node locals = Returned node' locals'
    ∧ length locals' = length locals
    ∧ (∀ i, i + 1 < length locals → locals' !! i = locals !! i)
    ∧ (∀ s, last locals = Some s → ∃ s', last locals' = Some s' ∧ s ⊆ s')
    ∧ ((length locals ≤ 1)%nat → locals' = locals).
Proof.
  intros Hnode.
  destruct (balanced_visit x node Hnode locals) as (node' & locals' & Hv & Hf).
  exists node', locals'. split; [done|]. by apply frame_explicit.
Qed.

(** The same for a rewritable statement of any of the 23 statement
    classes. *)
Theorem visit_stmt_keeps_scopes (x : transformer) (node : stmt)
    (locals : list (gset string)) :
  rewritable_stmt node = true →
  ∃ node' locals',
    visit_stmt x node locals = Returned node' locals'
    ∧ length locals' = length locals
    ∧ (∀ i, i + 1 < length locals → locals' !! i = locals !! i)
    ∧ (∀ s, last locals = Some s → ∃ s', last locals' = Some s' ∧ s ⊆ s')
    ∧ ((length locals ≤ 1)%nat → locals' = locals).
Proof.
  intros Hnode.
  destruct (balanced_visit_stmt x node Hnode locals)
    as (node' & locals' & Hv & Hf).
  exists node', locals'. split; [done|]. by apply frame_explicit.
Qed.

(** At the top level, where the list of scopes has one entry, nothing is
    ever registered: after a whole module or expression the list is the
    one the rewriter started with, so the constants are never changed and
    every scope pushed on the way has been removed. *)
Theorem top_level_scope_unchanged (x : transformer) (node : mod_)
    (s : gset string) :
  rewritable_mod node = true →
  ∃ node', visit_mod x node [s] = Returned node' [s].
Proof.
  intros Hnode.
  destruct (balanced_visit_mod x node Hnode [s]) as (node' & locals' & Hv & Hf).
  exists node'. rewrite Hv. f_equal. by apply frame_single.
Qed.

(** The data of a code object that [_compile] returns.  Its file name is
    the one given when that is a non-empty [str], ["<string>"] when none
    or an empty [str] is given (so it is not empty then), and the UTF-8
    encoding of a [unicode] one, the empty one included.  Its first line is
    at least 1: the one given when that is positive, and 1 otherwise.  In
    the mode ['exec'] a source was given. *)
Theorem _compile_metadata (node : mod_) (source : option string)
    (mode_ : mode) (filename : option basestring) (lineno : Z)
    (xform : option transformer) (code : CodeType) :
  _compile node source mode_ filename lineno xform = Ok code →
  (∀ f, filename = Some (PyStr f) → f ≠ "" → co_filename code = f)
  ∧ (filename = None ∨ filename = Some (PyStr "") →
     co_filename code = "<string>")
  ∧ (∀ u, filename = Some (PyUnicode u) → co_filename code = encode_utf8 u)
  ∧ ((∀ u, filename ≠ Some (PyUnicode u)) → co_filename code ≠ "")
  ∧ (1 ≤ co_firstlineno code)%Z
  ∧ (0 < lineno → co_firstlineno code = lineno)%Z
  ∧ (lineno ≤ 0 → co_firstlineno code = 1)%Z
  ∧ (mode_ = mode_exec → source ≠ None).
Proof.
  unfold _compile.
  destruct (visit_mod _ node initial_locals) as [tree locals|]; [|done].
  destruct (match mode_ with mode_eval => _ | mode_exec => _ end)
    as [name|] eqn:Hname; [|done].
  intros [= <-]. cbn [co_filename co_firstlineno].
  split; [|split; [|split; [|split; [|split; [|split; [|split]]]]]].
  - intros f -> Hf. by rewrite decide_False.
  - by intros [-> | ->].
  - by intros u ->.
  - intros Hu. destruct filename as [[f|u]|]; [by case_decide|by destruct (Hu u)|done].
  - case_decide; lia.
  - intros ?. by rewrite decide_False by lia.
  - intros ?. by rewrite decide_True.
  - intros -> ->. done.
Qed.

(** ** Names: reads, writes and registration *)

Lemma elem_of_by_decide (id : string) (s : gset string) :
  bool_decide (id ∈ s) = true → id ∈ s.
Proof. apply bool_decide_eq_true_1. Qed.

Lemma add_if_nested_nested (name : string) (outer : list (gset string))
    (s : gset string) :
  outer ≠ [] →
  add_if_nested name (outer ++ [s]) = Returned tt (outer ++ [{[name]} ∪ s]).
Proof.
  intros Hne. unfold add_if_nested, bind, get_locals.
  rewrite decide_True.
  2: { rewrite length_app. cbn [length]. destruct outer; [done|].
       cbn [length]. lia. }
  unfold locals_add. destruct (outer ++ [s]) as [|s0 l] eqn:Heq.
  { by destruct outer. }
  by rewrite <- Heq, alter_last.
Qed.

Lemma add_if_nested_top (name : string) (locals : list (gset string)) :
  (length locals ≤ 1)%nat → add_if_nested name locals = Returned tt locals.
Proof.
  intros Hlen. unfold add_if_nested, bind, get_locals.
  by rewrite decide_False by lia.
Qed.

Lemma visitName_store (id : string) (ctx : expr_context)
    (locals : list (gset string)) :
  ctx = Store ∨ ctx = AugStore →
  visitName id ctx locals
  = match add_if_nested id locals with
    | Returned _ locals' => Returned (Name id ctx) locals'
    | Raised e locals' => Raised e locals'
    end.
Proof. by intros [-> | ->]. Qed.

Lemma visit_Name (x : transformer) (id : string) (ctx : expr_context) :
  x ≠ ASTTransformer → visit x (Name id ctx) = visitName id ctx.
Proof. by destruct x. Qed.

(** [visitName].  A read is replaced by the call
    [_lookup_name(__data__, id)] when the name is in no scope and kept
    when it is in one, and the scopes are unchanged.  A write is never
    replaced: at the top level it leaves the scopes unchanged, and below
    at least one other scope it adds the name to the innermost scope, so
    that a read that follows is kept.  A parameter or deleted name is
    returned as it is. *)
Theorem visitName_reads_and_writes (id : string)
    (locals : list (gset string)) :
  (∀ ctx, ctx = Load ∨ ctx = AugLoad →
     (Exists (λ s, id ∈ s) locals →
      visitName id ctx locals = Returned (Name id ctx) locals)
     ∧ (¬ Exists (λ s, id ∈ s) locals →
        visitName id ctx locals = Returned (lookup_name_call id) locals))
  ∧ (∀ ctx, ctx = Store ∨ ctx = AugStore →
     ((length locals ≤ 1)%nat →
      visitName id ctx locals = Returned (Name id ctx) locals)
     ∧ (∀ outer s, outer ≠ [] → locals = outer ++ [s] →
        visitName id ctx locals
        = Returned (Name id ctx) (outer ++ [{[id]} ∪ s])
        ∧ visitName id Load (outer ++ [{[id]} ∪ s])
          = Returned (Name id Load) (outer ++ [{[id]} ∪ s])))
  ∧ (∀ ctx, ctx = Del ∨ ctx = Param →
     visitName id ctx locals = Returned (Name id ctx) locals).
Proof.
  split; [|split].
  - intros ctx Hctx. rewrite visitName_load by done. split; intros Hin.
    + by rewrite bool_decide_eq_true_2.
    + by rewrite bool_decide_eq_false_2.
  - intros ctx Hctx. rewrite visitName_store by done. split.
    + intros Hlen. by rewrite add_if_nested_top.
    + intros outer s Hne ->. rewrite add_if_nested_nested by done.
      split; [done|]. rewrite visitName_load by auto.
      rewrite bool_decide_eq_true_2; [done|].
      rewrite Exists_app, Exists_cons. right. left. set_solver.
  - by intros ctx [-> | ->].
Qed.

(** ** Parameters *)

(** On parameters without a tuple that has elements, [_extract_names]
    returns a set that holds exactly the identifiers of the positional
    parameters that are plain names; a variadic name is in it only when a
    positional parameter has the same name. *)
Theorem _extract_names_positional (node : arguments expr) :
  extractable node = true →
  ∃ names,
    _extract_names node = Ok names
    ∧ ∀ id, id ∈ names ↔ ∃ ctx, Name id ctx ∈ args node.
Proof.
  intros Hnode. exists (positional_names node).
  split; [by apply _extract_names_spec|].
  intros id. unfold positional_names.
  rewrite elem_of_list_to_set, list_elem_of_omap. split.
  - intros (arg & Harg & Hid). destruct arg; try done.
    injection Hid as ->. eauto.
  - intros (ctx & Hin). by exists (Name id ctx).
Qed.

Lemma _extract_names_raises (l : list expr) (acc : result (gset string)) :
  forallb (λ arg, match arg with Tuple (_ :: _) _ => false | _ => true end) l
  = false →
  acc = Raise RuntimeError ∨ (∃ s, acc = Ok s) →
  foldl (λ acc arg,
           match acc with Ok s => _process arg s | Raise e => Raise e end)
    acc l
  = Raise RuntimeError.
Proof.
  revert acc. induction l as [|arg l IH]; intros acc Hl Hacc; [done|].
  cbn [forallb foldl] in *. apply andb_false_iff in Hl as [Harg | Hl].
  - assert (∀ acc', acc' = Raise RuntimeError →
              foldl (λ acc arg,
                       match acc with
                       | Ok s => _process arg s
                       | Raise e => Raise e
                       end) acc' l = Raise RuntimeError) as Hstuck.
    { clear. intros acc' ->. by induction l. }
    apply Hstuck. destruct Hacc as [-> | [s ->]]; [done|].
    destruct arg as [| | | | | | | | | | | | | | | | | |[|elt elts] ctx];
      done.
  - apply IH; [done|]. destruct Hacc as [-> | [s ->]]; [by left|].
    destruct arg as [| | | | | | | | | | | | | | | |id ctx| |[|elt elts] ctx];
      cbn [_process]; eauto.
Qed.

(** A tuple parameter with elements, as in [lambda (a, b): a], makes
    [_extract_names] raise [RuntimeError] (its helper calls itself on the
    same tuple without end); the lambda is then not rewritten, the
    exception leaves [visit] before any scope is appended, and [_compile]
    fails with it. *)
Theorem tuple_parameter_raises (x : transformer) (node : arguments expr)
    (body : expr) (locals : list (gset string)) (source : option string)
    (mode_ : mode) (filename : option basestring) (lineno : Z) :
  extractable node = false →
  x ≠ ASTTransformer →
  _extract_names node = Raise RuntimeError
  ∧ visit x (Lambda node body) locals = Raised RuntimeError locals
  ∧ _compile (mod_Expression (AST_expr (Lambda node body))) source mode_
      filename lineno None
    = Raise RuntimeError.
Proof.
  intros Hnode Hx.
  assert (_extract_names node = Raise RuntimeError) as Hraise.
  { unfold _extract_names. rewrite _extract_names_raises; eauto. }
  assert (∀ x, x ≠ ASTTransformer → ∀ locals,
            visit x (Lambda node body) locals = Raised RuntimeError locals)
    as Hvisit.
  { intros x' Hx' locals'.
    assert (visit x' (Lambda node body) = visitLambda (visit x') node body)
      as -> by (by destruct x').
    unfold visitLambda, bind. by rewrite Hraise. }
  split; [done|]. split; [by apply Hvisit|].
  unfold _compile, visit_mod, visit_AST, bind.
  by destruct mode_; rewrite Hvisit.
Qed.

(** ** Targets of comprehensions and loops, names of definitions *)

Lemma for_reversed_length {A B} (f : A → M B) (l : list A) (ys : list B)
    (locals locals' : list (gset string)) :
  for_reversed f l locals = Returned ys locals' → length ys = length l.
Proof.
  revert ys locals'. induction l as [|x l IH]; intros ys locals';
    cbn [for_reversed].
  - by intros [= <- _].
  - unfold bind, ret.
    destruct (for_reversed f l locals) as [ys0 locals0|] eqn:Hl; [|done].
    destruct (f x locals0) as [y locals1|]; [|done].
    intros [= <- _]. cbn [length]. f_equal. by eapply IH.
Qed.

(** [append(s); try: body finally: pop()] around a body that returns with
    the appended scope still innermost. *)
Lemma scoped_returns {A} (s s' : gset string) (body : M A) (a : A)
    (locals : list (gset string)) :
  body (locals ++ [s]) = Returned a (locals ++ [s']) →
  (_ <- locals_append s ;; try_finally body locals_pop) locals
  = Returned a locals.
Proof.
  intros Hbody. unfold bind, locals_append, try_finally. rewrite Hbody.
  unfold locals_pop.
  destruct (locals ++ [s']) as [|s0 l] eqn:Heq; [by destruct locals|].
  by rewrite <- Heq, removelast_last.
Qed.

(** The target of a clause is local in the element of its comprehension:
    whatever clause binds the name [t], and whatever the other clauses
    are, the element [t] of a list comprehension or generator expression
    is kept as a plain name, and the list of scopes is the one found on
    entry. *)
Theorem comprehension_target_kept (x : transformer) (t : string)
    (before : list (comprehension expr)) (it : expr) (conds : list expr)
    (after : list (comprehension expr)) (locals : list (gset string)) :
  let generators :=
    before ++ Comprehension (Name t Store) it conds :: after in
  x ≠ ASTTransformer →
  locals ≠ [] →
  rewritable (ListComp (Name t Load) generators) = true →
  ∃ generators',
    length generators' = length generators
    ∧ visit x (ListComp (Name t Load) generators) locals
      = Returned (ListComp (Name t Load) generators') locals
    ∧ visit x (GeneratorExp (Name t Load) generators) locals
      = Returned (GeneratorExp (Name t Load) generators') locals.
Proof.
  cbv zeta. cbn [rewritable].
  intros Hx Hlocals [_ Hgens]%andb_prop.
  rewrite forallb_app in Hgens. cbn [forallb] in Hgens.
  apply andb_prop in Hgens as [Hbefore [Hg Hafter]%andb_prop].
  apply rewritable_comprehension_inv in Hg as (_ & Hit & Hconds).
  cbn [iter ifs] in *.
  destruct (pushes_generators x after Hafter locals)
    as (after' & pushed_after & Hafter' & Hlen_after).
  assert (locals ++ pushed_after ≠ []) as Hne by (by destruct locals).
  destruct (balanced_visit x _ Hit ((locals ++ pushed_after) ++ [{[t]} ∪ ∅]))
    as (it' & ? & Hit' & (s_it & -> & Hsub)%frame_inv_last).
  destruct (balanced_mapM (visit x) conds (balanced_visit_all x _ Hconds)
              ((locals ++ pushed_after) ++ [s_it]))
    as (conds' & ? & Hconds' & (s_g & -> & Hsub')%frame_inv_last).
  assert (visit_generator (visit x) (Comprehension (Name t Store) it conds)
            (locals ++ pushed_after)
          = Returned (Comprehension (Name t Store) it' conds')
              ((locals ++ pushed_after) ++ [s_g])) as Hg'.
  { unfold visit_generator, bind, locals_append. cbn [target iter ifs].
    rewrite visit_Name, visitName_store by auto.
    by rewrite add_if_nested_nested, Hit', Hconds'. }
  destruct (pushes_generators x before Hbefore
              ((locals ++ pushed_after) ++ [s_g]))
    as (before' & pushed_before & Hbefore' & Hlen_before).
  assert (visit x (Name t Load)
            (((locals ++ pushed_after) ++ [s_g]) ++ pushed_before)
          = Returned (Name t Load)
              (((locals ++ pushed_after) ++ [s_g]) ++ pushed_before))
    as Helt.
  { rewrite visit_Name, visitName_load by auto.
    rewrite bool_decide_eq_true_2; [done|].
    rewrite !Exists_app, Exists_cons. left. right. left. set_solver. }
  exists (before' ++ Comprehension (Name t Store) it' conds' :: after').
  split.
  { rewrite !length_app. cbn [length].
    by rewrite (for_reversed_length _ _ _ _ _ Hafter'),
      (for_reversed_length _ _ _ _ _ Hbefore'). }
  enough (∀ class_,
    visitGeneratorExp (visit x) class_ (Name t Load)
      (before ++ Comprehension (Name t Store) it conds :: after) locals
    = Returned
        (class_ (Name t Load)
           (before' ++ Comprehension (Name t Store) it' conds' :: after'))
        locals) as Hvisit.
  { by destruct x; cbn [visit]; rewrite ?Hvisit. }
  intros class_. unfold visitGeneratorExp, bind. rewrite for_reversed_app.
  cbn [for_reversed]. unfold bind. rewrite Hafter', Hg'. unfold ret at 1.
  rewrite Hbefore'. unfold ret at 1. rewrite Helt.
  unfold locals_del_last, ret. rewrite decide_False.
  2: { rewrite length_app. cbn [length]. lia. }
  rewrite <- !app_assoc. f_equal. apply take_app_length'.
  rewrite !length_app. cbn [length]. lia.
Qed.

(** C7: a defect of the code.  The clauses are handled last to first, so
    the scope of a clause is not on the list when a clause declared after
    it is rewritten.  In [[elt for t in it for u in t]] the iterable [t]
    of the second clause, which is the target of the first, is replaced
    by [_lookup_name(__data__, 't')] when no scope found on entry holds
    [t]: the comprehension then reads the context, not its own
    variable. *)
Theorem earlier_target_redirected (x : transformer) (t u : string)
    (it elt : expr) (locals : list (gset string)) :
  let generators :=
    [Comprehension (Name t Store) it [];
     Comprehension (Name u Store) (Name t Load) []] in
  x ≠ ASTTransformer → locals ≠ [] →
  t ≠ u → ¬ Exists (λ s, t ∈ s) locals →
  rewritable it = true → rewritable elt = true →
  ∃ it' elt',
    let generators' :=
      [Comprehension (Name t Store) it' [];
       Comprehension (Name u Store) (lookup_name_call t) []] in
    visit x (ListComp elt generators) locals
    = Returned (ListComp elt' generators') locals
    ∧ visit x (GeneratorExp elt generators) locals
      = Returned (GeneratorExp elt' generators') locals.
Proof.
  cbv zeta. intros Hx Hne Htu Ht Hit Helt.
  assert (visit_generator (visit x)
            (Comprehension (Name u Store) (Name t Load) []) locals
          = Returned (Comprehension (Name u Store) (lookup_name_call t) [])
              (locals ++ [{[u]} ∪ ∅])) as Hg2.
  { unfold visit_generator, bind, locals_append. cbn [target iter ifs mapM].
    rewrite visit_Name, visitName_store by auto.
    rewrite add_if_nested_nested by done.
    rewrite visit_Name, visitName_load by auto.
    rewrite bool_decide_eq_false_2; [done|].
    rewrite Exists_app, Exists_cons, Exists_nil.
    intros [?|[?|[]]]; [done|set_solver]. }
  assert (locals ++ [{[u]} ∪ ∅] ≠ []) as Hne' by (by destruct locals).
  destruct (balanced_visit x _ Hit ((locals ++ [{[u]} ∪ ∅]) ++ [{[t]} ∪ ∅]))
    as (it' & ? & Hit' & (s1 & -> & _)%frame_inv_last).
  assert (visit_generator (visit x) (Comprehension (Name t Store) it [])
            (locals ++ [{[u]} ∪ ∅])
          = Returned (Comprehension (Name t Store) it' [])
              ((locals ++ [{[u]} ∪ ∅]) ++ [s1])) as Hg1.
  { unfold visit_generator, bind, locals_append. cbn [target iter ifs mapM].
    rewrite visit_Name, visitName_store by auto.
    by rewrite add_if_nested_nested, Hit'. }
  destruct (balanced_visit x _ Helt ((locals ++ [{[u]} ∪ ∅]) ++ [s1]))
    as (elt' & ? & Helt' & (s2 & -> & _)%frame_inv_last).
  exists it', elt'.
  enough (∀ class_,
    visitGeneratorExp (visit x) class_ elt
      [Comprehension (Name t Store) it [];
       Comprehension (Name u Store) (Name t Load) []] locals
    = Returned
        (class_ elt'
           [Comprehension (Name t Store) it' [];
            Comprehension (Name u Store) (lookup_name_call t) []])
        locals) as Hvisit.
  { by destruct x; cbn [visit]; rewrite ?Hvisit. }
  intros class_. unfold visitGeneratorExp, bind. cbn [for_reversed].
  unfold bind. unfold ret at 1. rewrite Hg2. unfold ret at 1. rewrite Hg1.
  unfold ret at 1. rewrite Helt'.
  unfold locals_del_last, ret. cbn [length]. rewrite decide_False by lia.
  f_equal. rewrite <- !app_assoc. apply take_app_length'.
  rewrite !length_app. cbn [length]. lia.
Qed.

(** The variable of a [for] loop is local in the body of the loop: a
    statement of the body that reads it keeps the plain name, also at the
    top level, and after the loop the list of scopes is the one found on
    entry. *)
Theorem for_target_kept (x : transformer) (t : string) (it : expr)
    (body orelse : list stmt) (locals : list (gset string)) :
  x ≠ ASTTransformer →
  locals ≠ [] →
  rewritable_stmt (For (Name t Store) it (Expr (Name t Load) :: body) orelse)
  = true →
  ∃ it' body' orelse',
    visit_stmt x (For (Name t Store) it (Expr (Name t Load) :: body) orelse)
      locals
    = Returned (For (Name t Store) it' (Expr (Name t Load) :: body') orelse')
        locals.
Proof.
  cbn [rewritable_stmt forallb rewritable].
  intros Hx Hlocals [[[_ Hit]%andb_prop [_ Hbody]%andb_prop]%andb_prop
                      Horelse]%andb_prop.
  destruct (balanced_visit x _ Hit (locals ++ [{[t]} ∪ ∅]))
    as (it' & ? & Hit' & (s1 & -> & Hsub1)%frame_inv_last).
  destruct (balanced_visit_stmt_all x _ Hbody (locals ++ [s1]))
    as (body' & ? & Hbody' & (s2 & -> & Hsub2)%frame_inv_last).
  destruct (balanced_visit_stmt_all x _ Horelse (locals ++ [s2]))
    as (orelse' & ? & Horelse' & (s3 & -> & Hsub3)%frame_inv_last).
  exists it', body', orelse'.
  assert (visit_stmt x
            (For (Name t Store) it (Expr (Name t Load) :: body) orelse)
          = visitFor
              (target' <- visit x (Name t Store) ;;
               iter' <- visit x it ;;
               body' <- mapM (visit_stmt x) (Expr (Name t Load) :: body) ;;
               orelse' <- mapM (visit_stmt x) orelse ;;
               ret (For target' iter' body' orelse'))) as ->
    by (by destruct x).
  apply scoped_returns with (s' := s3).
  unfold bind at 1. rewrite visit_Name, visitName_store by auto.
  rewrite add_if_nested_nested by done.
  unfold bind at 1. rewrite Hit'.
  unfold bind at 1. cbn [mapM visit_stmt].
  unfold bind at 1 2. rewrite visit_Name, visitName_load by auto.
  rewrite bool_decide_eq_true_2.
  2: { rewrite Exists_app, Exists_cons. right. left. set_solver. }
  unfold ret at 1. unfold bind at 1. rewrite Hbody'. unfold ret at 1.
  unfold bind. by rewrite Horelse'.
Qed.

Ltac balanced_all_step :=
  first
    [ apply balanced_ret
    | apply balanced_mapM, balanced_visit_all; assumption
    | apply balanced_optM_visit; assumption
    | apply balanced_visitarguments_all; assumption
    | apply balanced_visit_stmt_all; assumption
    | apply balanced_visit; assumption
    | apply balanced_bind; [|intros ?] ].

(** Below at least one other scope, the name of a function or class
    definition is added to the innermost enclosing scope, and that is all
    the definition changes in the list of scopes: the scope of its
    parameters or of its body is removed again. *)
Theorem definition_name_registered (x : transformer) (name : string)
    (args : arguments expr) (body : list stmt) (decorators bases : list expr)
    (outer : list (gset string)) (s : gset string) :
  x ≠ ASTTransformer →
  outer ≠ [] →
  (rewritable_stmt (FunctionDef name args body decorators) = true →
   ∃ node',
     visit_stmt x (FunctionDef name args body decorators) (outer ++ [s])
     = Returned node' (outer ++ [{[name]} ∪ s]))
  ∧ (rewritable_stmt (ClassDef name bases body) = true →
     ∃ node',
       visit_stmt x (ClassDef name bases body) (outer ++ [s])
       = Returned node' (outer ++ [{[name]} ∪ s])).
Proof.
  intros Hx Houter. split; cbn [rewritable_stmt]; intros Hnode;
    repeat match goal with
           | H : _ && _ = true |- _ => apply andb_prop in H as [??]
           end.
  - assert (extractable args = true) as Hext.
    { unfold rewritable_arguments in *.
      repeat match goal with
             | H : _ && _ = true |- _ => apply andb_prop in H as [??]
             end; done. }
    assert (balanced (
      args' <- visitarguments (visit x) args ;;
      body' <- mapM (visit_stmt x) body ;;
      decorators' <- mapM (visit x) decorators ;;
      ret (FunctionDef name args' body' decorators'))) as Hcloner
      by repeat balanced_all_step.
    destruct (restores_scoped (positional_names args) _ Hcloner
                (outer ++ [{[name]} ∪ s])) as (node' & Hnode').
    exists node'. destruct x; [done|..]; cbn [visit_stmt];
      unfold visitFunctionDef; unfold bind at 1;
      rewrite add_if_nested_nested by done;
      rewrite (_extract_names_spec _ Hext); unfold bind at 1; cbn [lift];
      exact Hnode'.
  - assert (balanced (
      bases' <- mapM (visit x) bases ;;
      body' <- mapM (visit_stmt x) body ;;
      ret (ClassDef name bases' body'))) as Hcloner
      by repeat balanced_all_step.
    destruct (restores_scoped ∅ _ Hcloner (outer ++ [{[name]} ∪ s]))
      as (node' & Hnode').
    exists node'. destruct x; [done|..]; cbn [visit_stmt];
      unfold visitClassDef; unfold bind at 1;
      rewrite add_if_nested_nested by done; exact Hnode'.
Qed.

(** A comprehension without any clause, which only a hand-built tree can
    hold: [del self.locals[-0:]] deletes the whole list of scopes, the
    constants included, so a lambda around it then fails to pop its own
    scope with [IndexError]. *)
Theorem comprehension_without_clauses (x : transformer) (elt : expr)
    (args : arguments expr) (locals : list (gset string)) :
  x ≠ ASTTransformer →
  rewritable elt = true →
  ∃ elt',
    visit x (ListComp elt []) locals = Returned (ListComp elt' []) []
    ∧ visit x (GeneratorExp elt []) locals = Returned (GeneratorExp elt' []) []
    ∧ (rewritable_arguments rewritable args = true →
       visit x (Lambda args (ListComp elt [])) locals = Raised IndexError []).
Proof.
  intros Hx Helt.
  assert (∀ locals, ∃ elt', ∀ class_,
            visitGeneratorExp (visit x) class_ elt [] locals
            = Returned (class_ elt' []) []) as Hcomp.
  { intros locals0.
    destruct (balanced_visit x _ Helt locals0) as (elt' & locals' & Helt' & _).
    exists elt'. intros class_. unfold visitGeneratorExp, bind.
    cbn [for_reversed]. unfold ret at 1. by rewrite Helt'. }
  destruct (Hcomp locals) as (elt' & Hvisit). exists elt'.
  split; [by destruct x; cbn [visit]; rewrite ?Hvisit|].
  split; [by destruct x; cbn [visit]; rewrite ?Hvisit|].
  intros Hargs.
  assert (extractable args = true) as Hext.
  { unfold rewritable_arguments in Hargs.
    by apply andb_prop in Hargs as [[??]%andb_prop ?]. }
  assert (visit x (Lambda args (ListComp elt []))
          = visitLambda (visit x) args (ListComp elt [])) as ->
    by (by destruct x).
  assert (visit x (ListComp elt [])
          = visitGeneratorExp (visit x) ListComp elt []) as Hdispatch
    by (by destruct x).
  unfold visitLambda. rewrite (_extract_names_spec _ Hext).
  unfold bind, locals_append, try_finally. cbn [lift].
  destruct (balanced_visitarguments_all x args Hargs
              (locals ++ [positional_names args]))
    as (args' & locals' & -> & _).
  rewrite Hdispatch.
  destruct (Hcomp locals') as (elt'' & ->). reflexivity.
Qed.

(** ** String literals *)

(** [visitStr], under the two template transformers.  An ASCII [str]
    literal is returned as it is; a [str] literal that is not ASCII is
    replaced by the [unicode] literal of its UTF-8 decoding; when its
    bytes are not UTF-8 the [UnicodeDecodeError] of the decoding leaves
    [visit] with the scopes as they were, and [_compile] fails with it.
    The base transformer returns every literal as it is. *)
Theorem str_literal_decoded (x : transformer) (b : string)
    (locals : list (gset string)) (source : option string) (mode_ : mode)
    (filename : option basestring) (lineno : Z) :
  x ≠ ASTTransformer →
  (is_ascii b = true →
   visit x (Str (PyStr b)) locals = Returned (Str (PyStr b)) locals)
  ∧ (∀ u, is_ascii b = false → decode_utf8 b = Some u →
       visit x (Str (PyStr b)) locals = Returned (Str (PyUnicode u)) locals)
  ∧ (is_ascii b = false → decode_utf8 b = None →
     visit x (Str (PyStr b)) locals = Raised UnicodeDecodeError locals
     ∧ _compile (mod_Expression (AST_expr (Str (PyStr b)))) source mode_
         filename lineno None
       = Raise UnicodeDecodeError)
  ∧ visit ASTTransformer (Str (PyStr b)) locals
    = Returned (Str (PyStr b)) locals.
Proof.
  intros Hx.
  assert (visit x (Str (PyStr b)) = visitStr (PyStr b)) as Hvisit
    by (by destruct x).
  rewrite Hvisit. unfold visitStr. split; [|split; [|split]].
  - by intros ->.
  - by intros u -> ->.
  - intros Hascii Hdecode. rewrite Hascii, Hdecode. split; [done|].
    unfold _compile, visit_mod, visit_AST, bind. cbn [visit].
    unfold visitStr. rewrite Hascii, Hdecode. by destruct mode_.
  - done.
Qed.

(** ** The base transformer copies *)

Lemma mapM_id {A} (f : A → M A) (l : list A) :
  Forall (λ a, ∀ locals, f a locals = Returned a locals) l →
  ∀ locals, mapM f l locals = Returned l locals.
Proof.
  induction 1 as [|a l Ha _ IH]; intros locals; cbn [mapM]; [done|].
  unfold bind, ret. by rewrite Ha, IH.
Qed.

Lemma optM_id {A} (f : A → M A) (o : option A) :
  (∀ a, o = Some a → ∀ locals, f a locals = Returned a locals) →
  ∀ locals, optM f o locals = Returned o locals.
Proof.
  intros Hf locals. destruct o as [a|]; cbn [optM]; [|done].
  unfold bind, ret. by rewrite Hf.
Qed.

Lemma list_all_Forall_plain {A} (P : A → Prop) (l : list A) :
  list_all A P l → Forall P l.
Proof. induction 1; by constructor. Qed.

Lemma list_all_Forall_map {A} (P : A → Type) (Q : A → Prop) (l : list A) :
  (∀ a, P a → Q a) → list_all A P l → Forall Q l.
Proof. intros HPQ. induction 1; constructor; auto. Qed.

(** The property proved by induction on the tree. *)
Lemma visit_base_id (node : expr) (locals : list (gset string)) :
  visit ASTTransformer node locals = Returned node locals.
Proof.
  revert locals.
  induction node using expr_ind; intros locals; cbn [visit];
    unfold bind, ret;
    repeat match goal with
           | H : ∀ locals, visit ASTTransformer ?e locals = _ |- _ =>
               rewrite H; clear H
           | H : list_all expr _ ?l |- _ =>
               rewrite (mapM_id _ l (list_all_Forall_plain _ _ H)); clear H
           | H : option_all expr _ ?o |- _ =>
               rewrite (optM_id (visit ASTTransformer) o)
                 by (intros ? ->; by inversion H);
               clear H
           end;
    try done.
  - (* Lambda *)
    match goal with H : arguments_all _ _ _ |- _ => destruct H as [a Ha v k d Hd] end.
    unfold visitarguments, bind, ret. cbn [args defaults vararg kwarg].
    by rewrite (mapM_id _ a (list_all_Forall_plain _ _ Ha)),
      (mapM_id _ d (list_all_Forall_plain _ _ Hd)), IHnode.
  - (* ListComp *)
    match goal with
    | H : list_all (comprehension expr) _ ?l |- _ =>
        rewrite (mapM_id (visitcomprehension (visit ASTTransformer)) l)
    end; [done|].
    eapply list_all_Forall_map; [|eassumption].
    intros g [t Ht i Hi c Hc] locals'. unfold visitcomprehension, bind, ret.
    cbn [target iter ifs].
    by rewrite Ht, Hi, (mapM_id _ c (list_all_Forall_plain _ _ Hc)).
  - (* GeneratorExp *)
    match goal with
    | H : list_all (comprehension expr) _ ?l |- _ =>
        rewrite (mapM_id (visitcomprehension (visit ASTTransformer)) l)
    end; [done|].
    eapply list_all_Forall_map; [|eassumption].
    intros g [t Ht i Hi c Hc] locals'. unfold visitcomprehension, bind, ret.
    cbn [target iter ifs].
    by rewrite Ht, Hi, (mapM_id _ c (list_all_Forall_plain _ _ Hc)).
  - (* Call *)
    match goal with
    | H : list_all (string * expr) _ ?l |- _ =>
        rewrite (mapM_id (visitkeyword (visit ASTTransformer)) l)
    end.
    2: { eapply list_all_Forall_map; [|eassumption].
         intros kw [name _ value Hvalue] locals'.
         unfold visitkeyword, bind, ret. cbn [fst snd]. by rewrite Hvalue. }
    repeat match goal with
           | H : option_all expr _ ?o |- _ =>
               rewrite (optM_id (visit ASTTransformer) o)
                 by (intros ? ->; by inversion H);
               clear H
           end.
    done.
  - (* Subscript *)
    match goal with
    | H : slice_all _ _ ?sl |- _ =>
        enough (∀ locals, visitslice (visit ASTTransformer) sl locals
                          = Returned sl locals) as -> by done;
        revert H; generalize sl
    end.
    clear. intros sl.
    induction sl as [|lower upper step|dims IH|value] using slice_ind;
      intros Hall locals; cbn [visitslice]; unfold bind, ret.
    + done.
    + inversion Hall; subst.
      by rewrite !(optM_id (visit ASTTransformer))
        by (intros ? ->;
            match goal with H : option_all _ _ (Some _) |- _ =>
              by inversion H end).
    + rewrite mapM_id; [done|].
      inversion Hall as [| |dims' Hdims|]; subst. clear Hall.
      induction IH as [|d Hd dims _ IHdims]; [done|].
      inversion Hdims; subst. constructor; auto.
    + inversion Hall as [| | |value' Hvalue]; subst. by rewrite Hvalue.
Qed.

Lemma visit_base_id_all (l : list expr) (locals : list (gset string)) :
  mapM (visit ASTTransformer) l locals = Returned l locals.
Proof.
  apply mapM_id, Forall_forall. intros e _. apply visit_base_id.
Qed.

Lemma visit_stmt_base_id (node : stmt) (scopes : list (gset string)) :
  visit_stmt ASTTransformer node scopes = Returned node scopes.
Proof.
  revert scopes.
  induction node using stmt_ind; intros scopes; cbn [visit_stmt];
    unfold bind, ret;
    repeat match goal with
           | H : list_all stmt _ ?l |- _ =>
               rewrite (mapM_id _ l (list_all_Forall_plain _ _ H)); clear H
           | |- context [visit ASTTransformer ?e ?l] =>
               rewrite (visit_base_id e l)
           | |- context [mapM (visit ASTTransformer) ?es ?l] =>
               rewrite (visit_base_id_all es l)
           | |- context [optM (visit ASTTransformer) ?o ?l] =>
               rewrite (optM_id (visit ASTTransformer) o)
                 by (intros; apply visit_base_id)
           end;
    try done.
  - (* FunctionDef *)
    unfold visitarguments, bind, ret.
    rewrite !visit_base_id_all.
    match goal with
    | H : list_all stmt _ ?l |- _ =>
        rewrite (mapM_id _ l (list_all_Forall_plain _ _ H))
    end.
    rewrite visit_base_id_all.
    match goal with a : arguments expr |- _ => by destruct a end.
  - (* TryExcept *)
    match goal with
    | H : list_all (excepthandler expr stmt) _ ?l |- _ =>
        rewrite (mapM_id (visitexcepthandler (visit ASTTransformer)
                            (visit_stmt ASTTransformer)) l)
    end.
    + match goal with
      | H : list_all stmt _ ?l |- _ =>
          by rewrite (mapM_id _ l (list_all_Forall_plain _ _ H))
      end.
    + eapply list_all_Forall_map; [|eassumption].
      intros h [type _ name _ hbody Hbody] scopes'.
      unfold visitexcepthandler, bind, ret.
      rewrite !(optM_id (visit ASTTransformer))
        by (intros; apply visit_base_id).
      by rewrite (mapM_id _ hbody (list_all_Forall_plain _ _ Hbody)).
Qed.

Lemma visit_AST_base_id (node : AST) (locals : list (gset string)) :
  visit_AST ASTTransformer node locals = Returned node locals.
Proof.
  destruct node as [node|node]; cbn [visit_AST]; unfold bind, ret.
  - by rewrite visit_base_id.
  - by rewrite visit_stmt_base_id.
Qed.

(** The base class [ASTTransformer], whose visitors are all the generic
    cloner or the default visitor, returns a tree with the same classes
    and the same fields as the one it is given, for every expression, every
    statement (of each of the 23 statement classes, and the statement
    [visitImportFrom] builds) and every [Module] and [Expression], and uses
    no scopes.  (The trees carry the fields of the nodes, not their
    positions.) *)
Theorem ASTTransformer_copies (locals : list (gset string)) :
  (∀ node, visit ASTTransformer node locals = Returned node locals)
  ∧ (∀ node, visit_stmt ASTTransformer node locals = Returned node locals)
  ∧ (∀ node, visit_mod ASTTransformer node locals = Returned node locals).
Proof.
  split; [|split].
  - intros node. apply visit_base_id.
  - intros node. apply visit_stmt_base_id.
  - intros [body|body]; cbn [visit_mod]; unfold bind, ret.
    + rewrite mapM_id; [done|]. apply Forall_forall. intros s _.
      apply visit_AST_base_id.
    + by rewrite visit_AST_base_id.
Qed.

End MoreRewriterProperties.

(** * Further properties of the lookup policies *)

Section MoreLookupProperties.
Variable builtin_dict : gmap string pyval.
Variable getattr : pyval → string → result pyval.
Variable hasattr_class : pyval → string → bool.
Variable getitem : pyval → pyval → result pyval.
Variable repr : pyval → string.

#[local] Abbreviation BUILTINS := (BUILTINS builtin_dict).
#[local] Abbreviation undefined := (undefined repr).
#[local] Abbreviation lookup_name := (lookup_name builtin_dict repr).
#[local] Abbreviation lookup_attr := (lookup_attr getattr hasattr_class getitem repr).
#[local] Abbreviation lookup_item := (lookup_item getattr getitem repr).

(** The two policies differ only where a reference is missing.  For each
    of the three lookups, on the same arguments, either the lenient and
    the strict policy give the same outcome, or the strict one raises an
    [UndefinedError] and the lenient one returns an [Undefined] whose use
    (a call, here) raises that same error. *)
Theorem lenient_defers_strict (data : gmap string pyval) (name : string)
    (obj : pyval) (key : string) (keys : list pyval) (args : list pyval) :
  let defers (lenient strict : result pyval) : Prop :=
    lenient = strict
    ∨ ∃ key owner,
        lenient = Ok (VUndefined key owner)
        ∧ strict
          = Raise (UndefinedError (UndefinedError.__init__ repr key owner))
        ∧ Undefined.__call__ repr (Undefined.__init__ key owner) args
          = strict in
  defers (lookup_name LenientLookup data name)
    (lookup_name StrictLookup data name)
  ∧ defers (lookup_attr LenientLookup obj key)
      (lookup_attr StrictLookup obj key)
  ∧ defers (lookup_item LenientLookup obj keys)
      (lookup_item StrictLookup obj keys).
Proof.
  cbv zeta. unfold lookup_name, lookup_attr, lookup_item, getattr_default.
  split; [|split];
    repeat case_match; simplify_eq; eauto; right; eexists _, _; done.
Qed.

(** [lookup_name] under the lenient policy never raises.  Under the
    strict policy the only exception it raises is the [UndefinedError]
    ["<name>" not defined], and only for a name that is neither in the
    context nor in the built-in namespace.  The base class, which leaves
    [undefined] to its subclasses, raises [NotImplementedError] there. *)
Theorem lookup_name_failures (data : gmap string pyval) (name : string) :
  (∃ val, lookup_name LenientLookup data name = Ok val)
  ∧ (∀ e, lookup_name StrictLookup data name = Raise e →
       data !! name = None ∧ BUILTINS !! name = None
       ∧ e = UndefinedError (dquote ++ name ++ dquote ++ " not defined")%string)
  ∧ (∀ e, lookup_name LookupBase data name = Raise e →
       data !! name = None ∧ BUILTINS !! name = None
       ∧ e = NotImplementedError).
Proof.
  unfold lookup_name.
  destruct (data !! name) as [v|]; [|destruct (BUILTINS !! name) as [v|]];
    (split; [by eauto|]); split; intros e [=]; by subst.
Qed.


(** With a key that is not text, and so with every multi-index
    subscript, [lookup_item] is the native item access: it returns what
    [obj[key]] returns and raises what it raises, never an [Undefined]
    of its own and never an [UndefinedError], whatever the policy. *)
Theorem lookup_item_non_text_key (cls : lookup_class) (obj : pyval)
    (keys : list pyval) :
  (as_basestring (single_key keys) = None →
   lookup_item cls obj keys = getitem obj (single_key keys))
  ∧ (length keys ≠ 1 →
     lookup_item cls obj keys = getitem obj (VTuple keys)).
Proof.
  assert (as_basestring (single_key keys) = None →
          lookup_item cls obj keys = getitem obj (single_key keys)) as Hkey.
  { unfold lookup_item. intros ->.
    destruct (getitem obj (single_key keys)) as [v|e]; [done|].
    by destruct (item_failure e). }
  split; [done|]. intros Hlen.
  rewrite <- (single_key_other keys Hlen). apply Hkey.
  by rewrite single_key_other.
Qed.
End MoreLookupProperties.

(** * Further properties of compilation and evaluation *)

Section MoreEvaluationProperties.
Context {host : Host}.
Variable builtin_dict : gmap string pyval.
Variable getattr : pyval → string → result pyval.
Variable hasattr_class : pyval → string → bool.
Variable getitem : pyval → pyval → result pyval.
Variable repr : pyval → string.
Variable _parse : string → mode → result mod_.
Variable code_eq : CodeType → CodeType → bool.
Variable code_hash : CodeType → Z.

#[local] Abbreviation lookup_name := (lookup_name builtin_dict repr).
#[local] Abbreviation lookup_attr := (lookup_attr getattr hasattr_class getitem repr).
#[local] Abbreviation lookup_item := (lookup_item getattr getitem repr).
#[local] Abbreviation evaluate :=
  (Expression.evaluate builtin_dict getattr hasattr_class getitem repr).
#[local] Abbreviation eval_ :=
  (py_eval builtin_dict getattr hasattr_class getitem repr).

(** An expression that consists of an identifier that is not one of the
    [CONSTANTS] compiles under either named policy, and
    evaluating it is [lookup_name] on the data: a name bound in the data
    evaluates to its value there, also when a built-in has the same
    name. *)
Theorem evaluate_identifier (source : source_arg) (id : string)
    (filename : option basestring) (lineno : Z) (lookup : string)
    (cls : lookup_class) (data : gmap string pyval) :
  identifier_source _parse source id →
  id ∉ CONSTANTS →
  Code.lookup_by_name lookup = Ok cls →
  ∃ c, Code.__init__ _parse Expression source filename lineno
         (Some (PyString lookup)) None = Ok c
       ∧ evaluate c data = Some (lookup_name cls data id)
       ∧ (∀ val, data !! id = Some val → evaluate c data = Some (Ok val)).
Proof.
  intros Hsource Hid Hcls.
  destruct (compile_identifier _parse source id filename lineno lookup cls)
    as (c & Hc & Htree & Hglobals); [done..|].
  exists c. split; [done|].
  assert (evaluate c data = Some (lookup_name cls data id)) as Hev.
  { unfold Expression.evaluate. rewrite Htree, Hglobals.
    apply py_eval_lookup_name_call. }
  split; [done|]. intros val Hval. rewrite Hev.
  unfold lookup_name. by rewrite Hval.
Qed.

(** In an expression, an attribute reference [value.attr] is rewritten,
    in whatever context, into a call that evaluates to [lookup_attr] on
    the value of [value] and the attribute name; an exception raised by
    [value] is raised by the reference. *)
Theorem attribute_evaluates_through_lookup_attr (cls : lookup_class)
    (data : gmap string pyval) (value value' : expr) (attr : string)
    (ctx : expr_context) (locals locals' : list (gset string))
    (r : result pyval) :
  visit ExpressionASTTransformer value locals = Returned value' locals' →
  eval_ data (globals cls) {["__data__" := VData]} value' = Some r →
  ∃ node',
    visit ExpressionASTTransformer (Attribute value attr ctx) locals
    = Returned node' locals'
    ∧ eval_ data (globals cls) {["__data__" := VData]} node'
      = Some match r with
             | Ok obj => lookup_attr cls obj attr
             | Raise e => Raise e
             end.
Proof.
  intros Hvisit Heval. cbn [visit].
  unfold visitAttribute, instance_eq_class. cbn [negb andb].
  unfold bind, ret. rewrite Hvisit. eexists. split; [reflexivity|].
  cbn [py_eval py_eval_list].
  assert (({["__data__" := VData]} : gmap string pyval) !! "_lookup_attr"
          = None) as -> by done.
  assert (globals cls !! "_lookup_attr" = Some (VMethod cls m_lookup_attr))
    as -> by (by destruct cls).
  rewrite Heval. by destruct r.
Qed.

(** In an expression, a subscript [value[index]] with a single index is
    rewritten, in whatever context, into a call that evaluates to
    [lookup_item] on the value of [value] and the one-element tuple of the
    value of [index].  The index is rewritten before the value, and the
    value is evaluated before the index. *)
Theorem subscript_evaluates_through_lookup_item (cls : lookup_class)
    (data : gmap string pyval) (value value' index index' : expr)
    (ctx : expr_context) (locals locals1 locals2 : list (gset string))
    (rv ri : result pyval) :
  visit ExpressionASTTransformer index locals = Returned index' locals1 →
  visit ExpressionASTTransformer value locals1 = Returned value' locals2 →
  eval_ data (globals cls) {["__data__" := VData]} value' = Some rv →
  eval_ data (globals cls) {["__data__" := VData]} index' = Some ri →
  ∃ node',
    visit ExpressionASTTransformer (Subscript value (Index index) ctx) locals
    = Returned node' locals2
    ∧ eval_ data (globals cls) {["__data__" := VData]} node'
      = Some match rv with
             | Ok obj =>
                 match ri with
                 | Ok key => lookup_item cls obj [key]
                 | Raise e => Raise e
                 end
             | Raise e => Raise e
             end.
Proof.
  intros Hindex Hvalue Hv Hi. cbn [visit].
  unfold visitSubscript, instance_eq_class. cbn [negb andb].
  unfold bind, ret. rewrite Hindex, Hvalue. eexists. split; [reflexivity|].
  cbn [py_eval py_eval_list].
  assert (({["__data__" := VData]} : gmap string pyval) !! "_lookup_item"
          = None) as -> by done.
  assert (globals cls !! "_lookup_item" = Some (VMethod cls m_lookup_item))
    as -> by (by destruct cls).
  rewrite Hv, Hi. destruct rv; [|done]. by destruct ri.
Qed.

(** A lookup name other than ["lenient"] and ["strict"] makes the
    constructor fail: with the error of parsing or of compiling when
    there is one, since the text is compiled first, and with [KeyError]
    otherwise. *)
Theorem Code_init_unknown_lookup (cls : code_class) (source : source_arg)
    (filename : option basestring) (lineno : Z) (lookup : string)
    (xform : option transformer) :
  lookup ≠ "lenient" → lookup ≠ "strict" →
  Code.__init__ _parse cls source filename lineno (Some (PyString lookup)) xform
  = match Code.__init__ _parse cls source filename lineno None xform with
    | Ok _ => Raise KeyError
    | Raise e => Raise e
    end.
Proof.
  intros Hlenient Hstrict. unfold Code.__init__, Code.lookup_by_name.
  destruct source as [s|n].
  - destruct (_parse s (class_mode cls)); [|done].
    destruct (_compile _ _ _ _ _ _); [|done].
    cbn. destruct (decide (lookup = "lenient")); [done|].
    destruct (decide (lookup = "strict")); [done|]. reflexivity.
  - destruct (_compile _ _ _ _ _ _); [|done].
    cbn. destruct (decide (lookup = "lenient")); [done|].
    destruct (decide (lookup = "strict")); [done|]. reflexivity.
Qed.

(** The lookup policy is kept apart from the code: two objects built from
    the same arguments except for the policy have the same source, tree
    and code object, so they have the same hash, and they compare equal
    as soon as the code object equals itself. *)
Theorem Code_eq_ignores_lookup (cls : code_class) (source : source_arg)
    (filename : option basestring) (lineno : Z) (lookup1 lookup2 : option lookup_arg)
    (xform : option transformer) (c1 c2 : Code.t) :
  Code.__init__ _parse cls source filename lineno lookup1 xform = Ok c1 →
  Code.__init__ _parse cls source filename lineno lookup2 xform = Ok c2 →
  Code.source c1 = Code.source c2
  ∧ Code.ast c1 = Code.ast c2
  ∧ Code.code c1 = Code.code c2
  ∧ Code.__hash__ code_hash c1 = Code.__hash__ code_hash c2
  ∧ (code_eq (Code.code c1) (Code.code c1) = true →
     Code.__eq__ code_eq c1 c2 = true ∧ Code.__ne__ code_eq c1 c2 = false).
Proof.
  unfold Code.__init__, Code.__hash__, Code.__ne__, Code.__eq__.
  destruct (match source with
            | SourceText s => _
            | SourceNode n => _
            end) as [[source' node]|e]; [|done].
  destruct (_compile node (Some source') (class_mode cls) filename lineno xform)
    as [code_|e]; [|done].
  destruct (match default (PyString "strict") lookup1 with
            | PyNone => _ | PyString s => _ | PyLookup c => _
            end) as [l1|e]; [|done].
  destruct (match default (PyString "strict") lookup2 with
            | PyNone => _ | PyString s => _ | PyLookup c => _
            end) as [l2|e]; [|done].
  intros [= <-] [= <-]. cbn.
  repeat (split; [done|]). intros ->. by rewrite bool_decide_eq_true_2.
Qed.
End MoreEvaluationProperties.

(** * Further examples *)

(** [visit_keeps_scopes] on
    [lambda a: [a + b + '\xc3\xa9' for b in items]]. *)
Lemma visit_keeps_scopes_witness :
  let node :=
    Lambda (Arguments [Name "a" Param] None None [])
      (ListComp
         (BinOp (BinOp (Name "a" Load) Add (Name "b" Load)) Add
            (Str (PyStr Toy.e_acute)))
         [Comprehension (Name "b" Store) (Name "items" Load) []]) in
  rewritable node = true
  ∧ ∃ node' locals',
      visit ExpressionASTTransformer node initial_locals
      = Returned node' locals'
      ∧ length locals' = length initial_locals
      ∧ (∀ i, i + 1 < length initial_locals →
           locals' !! i = initial_locals !! i)
      ∧ (∀ s, last initial_locals = Some s →
           ∃ s', last locals' = Some s' ∧ s ⊆ s')
      ∧ ((length initial_locals ≤ 1)%nat → locals' = initial_locals).
Proof.
  intros node. split; [reflexivity|].
  exact (visit_keeps_scopes ExpressionASTTransformer node initial_locals
           eq_refl).
Defined.

(** [visit_stmt_keeps_scopes] on a loop, below one other scope, whose body
    is a [try] statement with a handler, a [print], an [assert] and an
    import. *)
Lemma visit_stmt_keeps_scopes_witness :
  let node :=
    For (Name "item" Store) (Name "items" Load)
      [TryExcept
         [Assign [Name "total" Store]
            (BinOp (Name "total" Load) Add (Name "item" Load));
          Print None [Name "total" Load] true]
         [ExceptHandler (Some (Name "TypeError" Load))
            (Some (Name "err" Store))
            [Raise_ (Some (Name "err" Load)) None None]]
         [Assert (Name "total" Load) None;
          ImportFrom "os" [Alias "*" None] None]] [] in
  rewritable_stmt node = true
  ∧ ∃ node' locals',
      visit_stmt TemplateASTTransformer node (initial_locals ++ [∅])
      = Returned node' locals'
      ∧ length locals' = length (initial_locals ++ [∅])
      ∧ (∀ i, i + 1 < length (initial_locals ++ [∅]) →
           locals' !! i = (initial_locals ++ [∅]) !! i)
      ∧ (∀ s, last (initial_locals ++ [∅]) = Some s →
           ∃ s', last locals' = Some s' ∧ s ⊆ s')
      ∧ ((length (initial_locals ++ [∅]) ≤ 1)%nat → locals' = initial_locals ++ [∅]).
Proof.
  intros node. split; [reflexivity|].
  exact (visit_stmt_keeps_scopes TemplateASTTransformer node
           (initial_locals ++ [∅]) eq_refl).
Defined.

(** [top_level_scope_unchanged] on the module
    [x = 1] / [def f(a): return a + x]. *)
Lemma top_level_scope_unchanged_witness :
  let node :=
    mod_Module
      [AST_stmt (Assign [Name "x" Store] (Num 1));
       AST_stmt
         (FunctionDef "f" (Arguments [Name "a" Param] None None [])
            [Return (Some (BinOp (Name "a" Load) Add (Name "x" Load)))] [])] in
  rewritable_mod node = true
  ∧ ∃ node', visit_mod TemplateASTTransformer node [CONSTANTS]
             = Returned node' [CONSTANTS].
Proof.
  intros node. split; [reflexivity|].
  exact (top_level_scope_unchanged TemplateASTTransformer node CONSTANTS eq_refl).
Defined.

(** [_compile_metadata] on [dict.some], compiled with an empty [str] as
    file name and with the line number [-1]. *)
Lemma _compile_metadata_witness :
  let node :=
    mod_Expression (AST_expr (Attribute (Name "dict" Load) "some" Load)) in
  ∃ code,
    _compile node (Some "dict.some") mode_eval (Some (PyStr "")) (-1) None
    = Ok code
    ∧ co_filename code = "<string>"
    ∧ co_filename code ≠ ""
    ∧ co_firstlineno code = 1%Z.
Proof.
  intros node. eexists. split; [reflexivity|].
  pose proof (_compile_metadata node (Some "dict.some") mode_eval
                (Some (PyStr "")) (-1) None _ eq_refl)
    as (_ & Hdefault & _ & Hfilled & _ & _ & Hline & _).
  split; [exact (Hdefault (or_intror eq_refl))|].
  split; [apply Hfilled; discriminate|].
  apply Hline. lia.
Defined.

(** [visitName_reads_and_writes] on the names [x] and [None], at the top
    level and below one other scope. *)
Lemma visitName_reads_and_writes_witness :
  visitName "x" Load initial_locals
  = Returned (lookup_name_call "x") initial_locals
  ∧ visitName "None" Load initial_locals
    = Returned (Name "None" Load) initial_locals
  ∧ visitName "x" Store initial_locals
    = Returned (Name "x" Store) initial_locals
  ∧ visitName "x" Store (initial_locals ++ [∅])
    = Returned (Name "x" Store) (initial_locals ++ [{["x"]} ∪ ∅]).
Proof.
  assert (¬ Exists (λ s, "x" ∈ s) initial_locals) as H1.
  { unfold initial_locals. rewrite Exists_cons, Exists_nil. intros [H | []].
    by apply (not_constant "x"). }
  assert (Exists (λ s, "None" ∈ s) initial_locals) as H2.
  { unfold initial_locals. apply Exists_cons. left.
    by apply elem_of_by_decide. }
  split; [|split; [|split]].
  - exact (proj2 (proj1 (visitName_reads_and_writes "x" initial_locals)
                    Load (or_introl eq_refl)) H1).
  - exact (proj1 (proj1 (visitName_reads_and_writes "None" initial_locals)
                    Load (or_introl eq_refl)) H2).
  - refine (proj1 (proj1 (proj2 (visitName_reads_and_writes "x" initial_locals))
                     Store (or_introl eq_refl)) _).
    cbn [length initial_locals]. lia.
  - refine (proj1 (proj2 (proj1 (proj2
              (visitName_reads_and_writes "x" (initial_locals ++ [∅])))
              Store (or_introl eq_refl)) initial_locals ∅ _ eq_refl)).
    discriminate.
Defined.

(** [_extract_names_positional] on the parameters [a, (), b] with a
    default and a variadic parameter [rest]. *)
Lemma _extract_names_positional_witness :
  let node :=
    Arguments [Name "a" Param; Tuple [] Store; Name "b" Param]
      (Some "rest") None [Num 1] in
  extractable node = true
  ∧ ∃ names,
      _extract_names node = Ok names
      ∧ ∀ id, id ∈ names ↔ ∃ ctx, Name id ctx ∈ args node.
Proof.
  intros node. split; [reflexivity|].
  exact (_extract_names_positional node eq_refl).
Defined.

(** [tuple_parameter_raises] on [lambda (a, b): a]. *)
Lemma tuple_parameter_raises_witness :
  let node :=
    Arguments [Tuple [Name "a" Store; Name "b" Store] Store] None None [] in
  extractable node = false
  ∧ ExpressionASTTransformer ≠ ASTTransformer
  ∧ _extract_names node = Raise RuntimeError
  ∧ visit ExpressionASTTransformer (Lambda node (Name "a" Load)) initial_locals
    = Raised RuntimeError initial_locals
  ∧ _compile (mod_Expression (AST_expr (Lambda node (Name "a" Load))))
      (Some "lambda (a, b): a") mode_eval None 1 None
    = Raise RuntimeError.
Proof.
  intros node.
  assert (ExpressionASTTransformer ≠ ASTTransformer) as H by discriminate.
  split; [reflexivity|]. split; [exact H|].
  exact (tuple_parameter_raises ExpressionASTTransformer node
           (Name "a" Load) initial_locals (Some "lambda (a, b): a") mode_eval
           None 1 eq_refl H).
Defined.

(** [positional_parameter_kept] on [lambda a, b=0: b]. *)
Lemma positional_parameter_kept_witness :
  let node := Arguments [Name "a" Param; Name "b" Param] None None [Num 0] in
  TemplateASTTransformer ≠ ASTTransformer
  ∧ rewritable_arguments rewritable node = true
  ∧ "b" ∈ positional_names node
  ∧ ∃ node', visit TemplateASTTransformer (Lambda node (Name "b" Load))
               initial_locals
             = Returned (Lambda node' (Name "b" Load)) initial_locals.
Proof.
  intros node.
  assert (TemplateASTTransformer ≠ ASTTransformer) as H1 by discriminate.
  assert ("b" ∈ positional_names node) as H2.
  { by apply elem_of_by_decide. }
  split; [exact H1|]. split; [reflexivity|]. split; [exact H2|].
  exact (positional_parameter_kept TemplateASTTransformer node "b"
           initial_locals H1 eq_refl H2).
Defined.

(** [comprehension_target_kept] on
    [[b for a in rows for b in a if b]]. *)
Lemma comprehension_target_kept_witness :
  let x := ExpressionASTTransformer in
  let generators :=
    [Comprehension (Name "a" Store) (Name "rows" Load) []]
    ++ Comprehension (Name "b" Store) (Name "a" Load) [Name "b" Load] :: [] in
  x ≠ ASTTransformer
  ∧ initial_locals ≠ []
  ∧ rewritable (ListComp (Name "b" Load) generators) = true
  ∧ ∃ generators',
      length generators' = length generators
      ∧ visit x (ListComp (Name "b" Load) generators) initial_locals
        = Returned (ListComp (Name "b" Load) generators') initial_locals
      ∧ visit x (GeneratorExp (Name "b" Load) generators) initial_locals
        = Returned (GeneratorExp (Name "b" Load) generators') initial_locals.
Proof.
  intros x generators.
  assert (x ≠ ASTTransformer) as H1 by discriminate.
  assert (initial_locals ≠ []) as H2 by discriminate.
  split; [exact H1|]. split; [exact H2|]. split; [reflexivity|].
  exact (comprehension_target_kept x "b"
           [Comprehension (Name "a" Store) (Name "rows" Load) []]
           (Name "a" Load) [Name "b" Load] [] initial_locals H1 H2 eq_refl).
Defined.

(** [for_target_kept] on the loop [for item in items] whose body reads
    [item] and assigns it to [last]. *)
Lemma for_target_kept_witness :
  let x := TemplateASTTransformer in
  let node :=
    For (Name "item" Store) (Name "items" Load)
      (Expr (Name "item" Load)
       :: [Assign [Name "last" Store] (Name "item" Load)]) [] in
  x ≠ ASTTransformer
  ∧ initial_locals ≠ []
  ∧ rewritable_stmt node = true
  ∧ ∃ it' body' orelse',
      visit_stmt x node initial_locals
      = Returned
          (For (Name "item" Store) it' (Expr (Name "item" Load) :: body')
             orelse')
          initial_locals.
Proof.
  intros x node.
  assert (x ≠ ASTTransformer) as H1 by discriminate.
  assert (initial_locals ≠ []) as H2 by discriminate.
  split; [exact H1|]. split; [exact H2|]. split; [reflexivity|].
  exact (for_target_kept x "item" (Name "items" Load)
           [Assign [Name "last" Store] (Name "item" Load)] []
           initial_locals H1 H2 eq_refl).
Defined.

(** [definition_name_registered] on [def helper(a): return a], below one
    other scope. *)
Lemma definition_name_registered_witness :
  let x := TemplateASTTransformer in
  let args := Arguments [Name "a" Param] None None [] in
  let body := [Return (Some (Name "a" Load))] in
  x ≠ ASTTransformer
  ∧ initial_locals ≠ []
  ∧ rewritable_stmt (FunctionDef "helper" args body []) = true
  ∧ ∃ node',
      visit_stmt x (FunctionDef "helper" args body []) (initial_locals ++ [∅])
      = Returned node' (initial_locals ++ [{["helper"]} ∪ ∅]).
Proof.
  intros x args body.
  assert (x ≠ ASTTransformer) as H1 by discriminate.
  assert (initial_locals ≠ []) as H2 by discriminate.
  split; [exact H1|]. split; [exact H2|]. split; [reflexivity|].
  exact (proj1 (definition_name_registered x "helper" args body [] []
                  initial_locals ∅ H1 H2) eq_refl).
Defined.

(** [comprehension_without_clauses] on a hand-built list comprehension
    with the element [a] and no clause. *)
Lemma comprehension_without_clauses_witness :
  let x := TemplateASTTransformer in
  let args := Arguments [Name "a" Param] None None [] in
  x ≠ ASTTransformer
  ∧ rewritable (Name "a" Load) = true
  ∧ ∃ elt',
      visit x (ListComp (Name "a" Load) []) initial_locals
      = Returned (ListComp elt' []) []
      ∧ visit x (GeneratorExp (Name "a" Load) []) initial_locals
        = Returned (GeneratorExp elt' []) []
      ∧ (rewritable_arguments rewritable args = true →
         visit x (Lambda args (ListComp (Name "a" Load) [])) initial_locals
         = Raised IndexError []).
Proof.
  intros x args.
  assert (x ≠ ASTTransformer) as H1 by discriminate.
  split; [exact H1|]. split; [reflexivity|].
  exact (comprehension_without_clauses x (Name "a" Load) args initial_locals
           H1 eq_refl).
Defined.

(** [lookup_name_failures] on the empty context: the strict lookup of
    ["nothing"] raises, and the theorem gives the message. *)
Lemma lookup_name_failures_witness :
  lookup_name Toy.builtin_dict Toy.repr StrictLookup ∅ "nothing"
  = Raise (UndefinedError (dquote ++ "nothing" ++ dquote ++ " not defined")%string)
  ∧ (∅ : gmap string pyval) !! "nothing" = None
  ∧ BUILTINS Toy.builtin_dict !! "nothing" = None
  ∧ UndefinedError (dquote ++ "nothing" ++ dquote ++ " not defined")%string
    = UndefinedError (dquote ++ "nothing" ++ dquote ++ " not defined")%string.
Proof.
  assert (lookup_name Toy.builtin_dict Toy.repr StrictLookup ∅ "nothing"
          = Raise (UndefinedError
                     (dquote ++ "nothing" ++ dquote ++ " not defined")%string))
    as H by reflexivity.
  split; [exact H|].
  exact (proj1 (proj2 (lookup_name_failures Toy.builtin_dict Toy.repr
                         ∅ "nothing")) _ H).
Defined.


(** [lookup_item_non_text_key] on the list [[1, 2, 3]]: the integer key
    [5] and the two-index key [(0, 1)] are handed to the list, whose
    [IndexError] and [TypeError] come back as they are. *)
Lemma lookup_item_non_text_key_witness :
  (as_basestring (single_key [VInt 5]) = None
   ∧ lookup_item Toy.getattr Toy.getitem Toy.repr LenientLookup (VHost 3)
       [VInt 5] = Raise IndexError)
  ∧ (length [VInt 0; VInt 1] ≠ 1
     ∧ lookup_item Toy.getattr Toy.getitem Toy.repr LenientLookup (VHost 3)
         [VInt 0; VInt 1] = Raise TypeError).
Proof.
  assert (as_basestring (single_key [VInt 5]) = None) as H1 by reflexivity.
  assert (length [VInt 0; VInt 1] ≠ 1) as H2 by (cbn; lia).
  split.
  - split; [exact H1|].
    exact (proj1 (lookup_item_non_text_key Toy.getattr Toy.getitem Toy.repr
                    LenientLookup (VHost 3) [VInt 5]) H1).
  - split; [exact H2|].
    exact (proj2 (lookup_item_non_text_key Toy.getattr Toy.getitem Toy.repr
                    LenientLookup (VHost 3) [VInt 0; VInt 1]) H2).
Defined.

(** [evaluate_identifier] on the text [nothing], with [nothing] bound in
    the context. *)
Lemma evaluate_identifier_witness :
  let data : gmap string pyval := {["nothing" := VInt 7]} in
  identifier_source Toy._parse (SourceText "nothing") "nothing"
  ∧ ("nothing" ∉ CONSTANTS)
  ∧ Code.lookup_by_name "lenient" = Ok LenientLookup
  ∧ ∃ c, Code.__init__ Toy._parse Expression (SourceText "nothing") None (-1)
           (Some (PyString "lenient")) None = Ok c
         ∧ toy_evaluate c data = Some (toy_lookup_name LenientLookup data "nothing")
         ∧ (∀ val, data !! "nothing" = Some val →
              toy_evaluate c data = Some (Ok val)).
Proof.
  cbv zeta.
  assert (identifier_source Toy._parse (SourceText "nothing") "nothing") as H1.
  { right. exists "nothing". split; reflexivity. }
  assert ("nothing" ∉ CONSTANTS) as H2.
  { apply not_constant. reflexivity. }
  assert (Code.lookup_by_name "lenient" = Ok LenientLookup) as H3.
  { reflexivity. }
  split; [exact H1|]. split; [exact H2|]. split; [exact H3|].
  exact (evaluate_identifier Toy.builtin_dict Toy.getattr Toy.hasattr_class
           Toy.getitem Toy.repr Toy._parse (SourceText "nothing") "nothing"
           None (-1) "lenient" LenientLookup {["nothing" := VInt 7]} H1 H2 H3).
Defined.

(** [attribute_evaluates_through_lookup_attr] on [nothing.append], with
    the list [[1, 2, 3]] bound to [nothing]. *)
Lemma attribute_evaluates_through_lookup_attr_witness :
  let data : gmap string pyval := {["nothing" := VHost 3]} in
  let eval_ := py_eval Toy.builtin_dict Toy.getattr Toy.hasattr_class
                 Toy.getitem Toy.repr data (globals StrictLookup)
                 {["__data__" := VData]} in
  visit ExpressionASTTransformer (Name "nothing" Load) initial_locals
  = Returned (lookup_name_call "nothing") initial_locals
  ∧ eval_ (lookup_name_call "nothing") = Some (Ok (VHost 3))
  ∧ ∃ node',
      visit ExpressionASTTransformer
        (Attribute (Name "nothing" Load) "append" Load) initial_locals
      = Returned node' initial_locals
      ∧ eval_ node' = Some (toy_lookup_attr StrictLookup (VHost 3) "append").
Proof.
  cbv zeta.
  assert (visit ExpressionASTTransformer (Name "nothing" Load) initial_locals
          = Returned (lookup_name_call "nothing") initial_locals) as H1.
  { vm_compute. reflexivity. }
  assert (py_eval Toy.builtin_dict Toy.getattr Toy.hasattr_class
            Toy.getitem Toy.repr {["nothing" := VHost 3]} (globals StrictLookup)
            {["__data__" := VData]} (lookup_name_call "nothing")
          = Some (Ok (VHost 3))) as H2.
  { vm_compute. reflexivity. }
  split; [exact H1|]. split; [exact H2|].
  exact (attribute_evaluates_through_lookup_attr Toy.builtin_dict Toy.getattr
           Toy.hasattr_class Toy.getitem Toy.repr StrictLookup
           {["nothing" := VHost 3]} (Name "nothing" Load)
           (lookup_name_call "nothing") "append" Load
           initial_locals initial_locals (Ok (VHost 3)) H1 H2).
Defined.

(** [subscript_evaluates_through_lookup_item] on [nothing[1]], with the
    list [[1, 2, 3]] bound to [nothing]. *)
Lemma subscript_evaluates_through_lookup_item_witness :
  let data : gmap string pyval := {["nothing" := VHost 3]} in
  let eval_ := py_eval Toy.builtin_dict Toy.getattr Toy.hasattr_class
                 Toy.getitem Toy.repr data (globals StrictLookup)
                 {["__data__" := VData]} in
  visit ExpressionASTTransformer (Num 1) initial_locals
  = Returned (Num 1) initial_locals
  ∧ visit ExpressionASTTransformer (Name "nothing" Load) initial_locals
    = Returned (lookup_name_call "nothing") initial_locals
  ∧ eval_ (lookup_name_call "nothing") = Some (Ok (VHost 3))
  ∧ eval_ (Num 1) = Some (Ok (VInt 1))
  ∧ ∃ node',
      visit ExpressionASTTransformer
        (Subscript (Name "nothing" Load) (Index (Num 1)) Load) initial_locals
      = Returned node' initial_locals
      ∧ eval_ node' = Some (toy_lookup_item StrictLookup (VHost 3) [VInt 1]).
Proof.
  cbv zeta.
  assert (visit ExpressionASTTransformer (Num 1) initial_locals
          = Returned (Num 1) initial_locals) as H0.
  { reflexivity. }
  assert (visit ExpressionASTTransformer (Name "nothing" Load) initial_locals
          = Returned (lookup_name_call "nothing") initial_locals) as H1.
  { vm_compute. reflexivity. }
  assert (py_eval Toy.builtin_dict Toy.getattr Toy.hasattr_class
            Toy.getitem Toy.repr {["nothing" := VHost 3]} (globals StrictLookup)
            {["__data__" := VData]} (lookup_name_call "nothing")
          = Some (Ok (VHost 3))) as H2.
  { vm_compute. reflexivity. }
  assert (py_eval Toy.builtin_dict Toy.getattr Toy.hasattr_class
            Toy.getitem Toy.repr {["nothing" := VHost 3]} (globals StrictLookup)
            {["__data__" := VData]} (Num 1)
          = Some (Ok (VInt 1))) as H3.
  { reflexivity. }
  split; [exact H0|]. split; [exact H1|]. split; [exact H2|].
  split; [exact H3|].
  exact (subscript_evaluates_through_lookup_item Toy.builtin_dict Toy.getattr
           Toy.hasattr_class Toy.getitem Toy.repr StrictLookup
           {["nothing" := VHost 3]} (Name "nothing" Load)
           (lookup_name_call "nothing") (Num 1) (Num 1) Load
           initial_locals initial_locals initial_locals
           (Ok (VHost 3)) (Ok (VInt 1)) H0 H1 H2 H3).
Defined.

(** [Code_init_unknown_lookup] on the text [nothing] with the lookup name
    ["tolerant"]: the text compiles, so the error is [KeyError]. *)
Lemma Code_init_unknown_lookup_witness :
  "tolerant" ≠ "lenient" ∧ "tolerant" ≠ "strict"
  ∧ Code.__init__ Toy._parse Expression (SourceText "nothing") None (-1)
      (Some (PyString "tolerant")) None
    = match Code.__init__ Toy._parse Expression (SourceText "nothing") None
              (-1) None None with
      | Ok _ => Raise KeyError
      | Raise e => Raise e
      end.
Proof.
  assert ("tolerant" ≠ "lenient") as H1 by discriminate.
  assert ("tolerant" ≠ "strict") as H2 by discriminate.
  split; [exact H1|]. split; [exact H2|].
  exact (Code_init_unknown_lookup Toy._parse Expression (SourceText "nothing")
           None (-1) "tolerant" None H1 H2).
Defined.

(** [Code_eq_ignores_lookup] on the text [nothing], compiled once with the
    lenient policy and once with the default one. *)
Lemma Code_eq_ignores_lookup_witness :
  let code_ := {| co_tree :=
                    mod_Expression (AST_expr (lookup_name_call "nothing"));
                  co_filename := "<string>";
                  co_name := "<Expression 'nothing'>";
                  co_firstlineno := 1 |} in
  let c1 := {| Code.class_ := Expression; Code.source := "nothing";
               Code.code := code_;
               Code.ast := mod_Expression (AST_expr (Name "nothing" Load));
               Code._globals := LenientLookup |} in
  let c2 := {| Code.class_ := Expression; Code.source := "nothing";
               Code.code := code_;
               Code.ast := mod_Expression (AST_expr (Name "nothing" Load));
               Code._globals := StrictLookup |} in
  Code.__init__ Toy._parse Expression (SourceText "nothing") None (-1)
    (Some PyNone) None = Ok c1
  ∧ Code.__init__ Toy._parse Expression (SourceText "nothing") None (-1)
      None None = Ok c2
  ∧ Toy.code_eq (Code.code c1) (Code.code c1) = true
  ∧ Code.__hash__ Toy.code_hash c1 = Code.__hash__ Toy.code_hash c2
  ∧ Code.__eq__ Toy.code_eq c1 c2 = true
  ∧ Code.__ne__ Toy.code_eq c1 c2 = false.
Proof.
  intros code_ c1 c2.
  assert (Code.__init__ Toy._parse Expression (SourceText "nothing") None (-1)
            (Some PyNone) None = Ok c1) as H1.
  { vm_compute. reflexivity. }
  assert (Code.__init__ Toy._parse Expression (SourceText "nothing") None (-1)
            None None = Ok c2) as H2.
  { vm_compute. reflexivity. }
  assert (Toy.code_eq (Code.code c1) (Code.code c1) = true) as H3.
  { reflexivity. }
  split; [exact H1|]. split; [exact H2|]. split; [exact H3|].
  pose proof (Code_eq_ignores_lookup Toy._parse Toy.code_eq Toy.code_hash
                Expression (SourceText "nothing") None (-1) (Some PyNone) None
                None c1 c2 H1 H2) as (_ & _ & _ & Hhash & Heq).
  split; [exact Hhash|]. exact (Heq H3).
Defined.

(** [earlier_target_redirected] on [[y for x in xs for y in x]]: the
    iterable [x] of the second clause becomes a lookup in the context. *)
Lemma earlier_target_redirected_witness :
  let generators :=
    [Comprehension (Name "x" Store) (Name "xs" Load) [];
     Comprehension (Name "y" Store) (Name "x" Load) []] in
  TemplateASTTransformer ≠ ASTTransformer
  ∧ initial_locals ≠ []
  ∧ "x" ≠ "y"
  ∧ ¬ Exists (λ s, "x" ∈ s) initial_locals
  ∧ rewritable (Name "xs" Load) = true
  ∧ rewritable (Name "y" Load) = true
  ∧ ∃ it' elt',
      visit TemplateASTTransformer (ListComp (Name "y" Load) generators)
        initial_locals
      = Returned
          (ListComp elt'
             [Comprehension (Name "x" Store) it' [];
              Comprehension (Name "y" Store) (lookup_name_call "x") []])
          initial_locals
      ∧ visit TemplateASTTransformer (GeneratorExp (Name "y" Load) generators)
          initial_locals
        = Returned
            (GeneratorExp elt'
               [Comprehension (Name "x" Store) it' [];
                Comprehension (Name "y" Store) (lookup_name_call "x") []])
            initial_locals.
Proof.
  cbv zeta.
  assert (TemplateASTTransformer ≠ ASTTransformer) as H1 by discriminate.
  assert (initial_locals ≠ []) as H2 by discriminate.
  assert ("x" ≠ "y") as H3 by discriminate.
  assert (¬ Exists (λ s, "x" ∈ s) initial_locals) as H4.
  { unfold initial_locals. rewrite Exists_cons, Exists_nil. intros [H | []].
    by apply (not_constant "x"). }
  split; [exact H1|]. split; [exact H2|]. split; [exact H3|].
  split; [exact H4|]. split; [reflexivity|]. split; [reflexivity|].
  exact (earlier_target_redirected TemplateASTTransformer "x" "y"
           (Name "xs" Load) (Name "y" Load) initial_locals H1 H2 H3 H4
           eq_refl eq_refl).
Defined.

(** [str_literal_decoded] on the one-byte literal ['\xff'], which is not
    UTF-8. *)
Lemma str_literal_decoded_witness :
  let b := String "255" EmptyString in
  ExpressionASTTransformer ≠ ASTTransformer
  ∧ is_ascii b = false
  ∧ decode_utf8 b = None
  ∧ visit ExpressionASTTransformer (Str (PyStr b)) initial_locals
    = Raised UnicodeDecodeError initial_locals
  ∧ _compile (mod_Expression (AST_expr (Str (PyStr b)))) (Some "?") mode_eval
      None (-1) None
    = Raise UnicodeDecodeError.
Proof.
  intros b.
  assert (ExpressionASTTransformer ≠ ASTTransformer) as H1 by discriminate.
  assert (is_ascii b = false) as H2 by reflexivity.
  assert (decode_utf8 b = None) as H3 by reflexivity.
  split; [exact H1|]. split; [exact H2|]. split; [exact H3|].
  exact (proj1 (proj2 (proj2
           (str_literal_decoded ExpressionASTTransformer b initial_locals
              (Some "?") mode_eval None (-1) H1))) H2 H3).
Defined.
